(** * Cronvex: user-space crons on top of a document store and a one-shot scheduler

    Shallow embedding of [convex/cronlib.ts]: registration ([scheduleCron] and
    its four entry points), management ([listCrons], [get], [getByName], [del],
    [delByName]) and the self re-arming [rescheduler].

    Modelling decisions.
    - Timestamps and durations are JavaScript numbers holding milliseconds;
      they are modelled as unbounded integers [Z], except in module
      [Doubles], where registration and the rescheduler are embedded over
      binary64 floats to follow the rounding of the tick times.
    - Document ids are opaque non-empty strings handed out by the store.  They
      are modelled as [nat]s drawn from a counter, and an optional id field is
      an [option]: the test [!doc.field] on such a field is the test for [None].
    - Every function runs against a [World]: the [crons] table, the system
      table of scheduled functions, the clock, and a [trace] of the effectful
      calls made so far.  A computation returns its outcome together with
      the world at the point where it returned or threw, so that "nothing
      happened before the error" is a statement one can prove.
    - [console.log] calls are not modelled. *)

From Stdlib Require Import ZArith List String Bool Arith Lia.
From Stdlib Require Import PrimFloat FloatOps SpecFloat.
Import ListNotations.
Local Open Scope Z_scope.
Local Open Scope string_scope.
Local Open Scope list_scope.

(** ** Data model *)

Definition CronId := nat.
Definition TaskId := nat.

(** Convex values, as far as the library is concerned an opaque payload. *)
Inductive Value :=
| VNull
| VNumber (n : Z)
| VBoolean (b : bool)
| VString (s : string).

(** [Record<string, Value>] *)
Definition Args := list (string * Value).

(** [type Schedule = { kind: "interval"; ms } | { kind: "cron"; cronspec }] *)
Inductive Schedule :=
| Interval (ms : Z)
| Cron (cronspec : string).

(** A row of the [crons] table. *)
Record CronJob := {
  _id : CronId;
  functionName : string;
  args : Args;
  name : option string;
  schedule : Schedule;
  schedulerJobId : option TaskId;
  executionJobId : option TaskId
}.

(** [state.kind] of a row of the system table of scheduled functions. *)
Inductive StateKind := pending | inProgress | success | failed | canceled.

(** What a scheduled function will call: the rescheduler itself, with its
    [{ cronJobId }] payload, or a user function with its arguments. *)
Inductive Call :=
| CallRescheduler (cronJobId : CronId)
| CallFunction (fn : string) (a : Args).

Record ScheduledFunction := {
  task_id : TaskId;
  call : Call;
  scheduledTime : Z;
  state : StateKind
}.

(** The object returned by [parser.parseExpression]; the only thing the code
    does with it is [interval.next().toDate()], which yields a date or throws. *)
Record CronExpression := { next : option Z }.

(** The code throws plain [Error]s; one constructor per message. *)
Inductive Error :=
| JobNotFound (id : CronId)              (* Cron job <id> not found *)
| NotScheduled (id : CronId)             (* Cron job <id> not scheduled *)
| NameNotFound (n : string)              (* Cron job "<name>" not found *)
| DuplicateName (n : string)             (* Cron job with name "<name>" already exists *)
| InvalidInterval                        (* Interval must be >= 1000ms *)
| InvalidCronSpec (c : string)           (* Invalid cronspec: "<cronspec>" *)
| ScheduledTaskNotFound (t : TaskId)     (* Scheduled job <id> not found *)
| IntegrityError (t : TaskId) (k : StateKind)
                                         (* We are running in job <id> but state is <kind> *)
| NotUnique                              (* thrown by the store's [.unique()] *)
| MissingDocument (id : CronId)          (* thrown by the store's patch / delete *)
| ParserError                            (* thrown by cron-parser outside validation *)
| ArgsError.                             (* thrown by [parseArgs] *)

(** Calls that reach the store or the scheduler, in program order. *)
Inductive Effect :=
| ERunAfter (delayMs : Z) (c : Call) (h : TaskId)
| ERunAt (ts : Z) (c : Call) (h : TaskId)
| ECancel (h : TaskId)
| EInsert (id : CronId)
| EPatch (id : CronId) (h : TaskId)
| EDelete (id : CronId).

Record World := {
  crons : list CronJob;
  scheduled : list ScheduledFunction;
  nextCronId : nat;
  nextTaskId : nat;
  now : Z;
  trace : list Effect
}.

Definition emptyWorld (t : Z) : World :=
  {| crons := []; scheduled := []; nextCronId := 0; nextTaskId := 0;
     now := t; trace := [] |}.

(** ** A state monad with exceptions *)

Inductive Result (A : Type) :=
| Ok (a : A)
| Throw (e : Error).
Arguments Ok {A} a.
Arguments Throw {A} e.

Definition M (A : Type) := World -> Result A * World.

Definition ret {A} (a : A) : M A := fun w => (Ok a, w).
Definition throw {A} (e : Error) : M A := fun w => (Throw e, w).
Definition bind {A B} (m : M A) (k : A -> M B) : M B :=
  fun w => match m w with
           | (Ok a, w') => k a w'
           | (Throw e, w') => (Throw e, w')
           end.

Declare Scope cron_scope.
Delimit Scope cron_scope with cron.
Notation "x <- m ;; k" := (bind m (fun x => k))
  (at level 61, m at next level, right associativity) : cron_scope.
Notation "m ;;; k" := (bind m (fun _ => k))
  (at level 61, right associativity) : cron_scope.
Local Open Scope cron_scope.

(** ** Small decidable tests *)

Definition isSome {A} (o : option A) : bool :=
  match o with Some _ => true | None => false end.

(** [kind === "pending" || kind === "inProgress"] *)
Definition pendingOrInProgress (k : StateKind) : bool :=
  match k with pending | inProgress => true | _ => false end.

(** JavaScript truthiness of a [string | undefined]. *)
Definition truthy (n : option string) : bool :=
  match n with
  | Some EmptyString => false
  | Some (String _ _) => true
  | None => false
  end.

Definition hasName (n : string) (d : CronJob) : bool :=
  match name d with
  | Some m => m =? n
  | None => false
  end.

Definition isRunAfter0 (e : Effect) : bool :=
  match e with
  | ERunAfter 0 (CallFunction _ _) _ => true
  | _ => false
  end.

Definition isTickFor (j : CronId) (sf : ScheduledFunction) : bool :=
  match call sf with
  | CallRescheduler j' => Nat.eqb j' j
  | CallFunction _ _ => false
  end.

Definition isDispatch (sf : ScheduledFunction) : bool :=
  match call sf with
  | CallFunction _ _ => true
  | CallRescheduler _ => false
  end.

(** ** The document store *)

Definition lookupCron (id : CronId) (l : list CronJob) : option CronJob :=
  find (fun d => Nat.eqb (_id d) id) l.

Definition lookupTask (h : TaskId) (l : list ScheduledFunction)
  : option ScheduledFunction :=
  find (fun sf => Nat.eqb (task_id sf) h) l.

(** [ctx.db.get(id)] on the [crons] table *)
Definition db_get (id : CronId) : M (option CronJob) :=
  fun w => (Ok (lookupCron id (crons w)), w).

(** [ctx.db.system.get(id)] on the scheduled functions *)
Definition db_system_get (h : TaskId) : M (option ScheduledFunction) :=
  fun w => (Ok (lookupTask h (scheduled w)), w).

(** [ctx.db.insert("crons", { functionName, args, name, schedule })]: the two
    task fields are left out by the caller and start absent. *)
Definition db_insert (f : string) (a : Args) (n : option string) (s : Schedule)
  : M CronId :=
  fun w =>
    let id := nextCronId w in
    (Ok id,
     {| crons := crons w ++
                 [{| _id := id; functionName := f; args := a; name := n;
                     schedule := s; schedulerJobId := None;
                     executionJobId := None |}];
        scheduled := scheduled w;
        nextCronId := S id;
        nextTaskId := nextTaskId w;
        now := now w;
        trace := trace w ++ [EInsert id] |}).

Definition setSchedulerJobId (h : TaskId) (d : CronJob) : CronJob :=
  {| _id := _id d; functionName := functionName d; args := args d;
     name := name d; schedule := schedule d;
     schedulerJobId := Some h; executionJobId := executionJobId d |}.

(** [ctx.db.patch(id, { schedulerJobId })]; the store throws when the document
    does not exist. *)
Definition db_patch (id : CronId) (h : TaskId) : M unit :=
  fun w =>
    match lookupCron id (crons w) with
    | None => (Throw (MissingDocument id), w)
    | Some _ =>
      (Ok tt,
       {| crons := map (fun d => if Nat.eqb (_id d) id
                                 then setSchedulerJobId h d else d) (crons w);
          scheduled := scheduled w;
          nextCronId := nextCronId w;
          nextTaskId := nextTaskId w;
          now := now w;
          trace := trace w ++ [EPatch id h] |})
    end.

(** [ctx.db.delete(id)]; the store throws when the document does not exist. *)
Definition db_delete (id : CronId) : M unit :=
  fun w =>
    match lookupCron id (crons w) with
    | None => (Throw (MissingDocument id), w)
    | Some _ =>
      (Ok tt,
       {| crons := filter (fun d => negb (Nat.eqb (_id d) id)) (crons w);
          scheduled := scheduled w;
          nextCronId := nextCronId w;
          nextTaskId := nextTaskId w;
          now := now w;
          trace := trace w ++ [EDelete id] |})
    end.

(** [.unique()]: the single result, [null] when there is none, and an
    exception when there are several. *)
Definition unique (l : list CronJob) : M (option CronJob) :=
  match l with
  | [] => ret None
  | [d] => ret (Some d)
  | _ :: _ :: _ => throw NotUnique
  end.

(** ** The scheduler primitive *)

(** The scheduler is an external collaborator.  As the spec describes it,
    [scheduleAt(timestamp, callable, payload)] creates one pending task with
    a handle never used before and returns the handle. *)
Definition schedule_task (eff : TaskId -> Effect) (ts : Z) (c : Call)
  : M TaskId :=
  fun w =>
    let h := nextTaskId w in
    (Ok h,
     {| crons := crons w;
        scheduled := scheduled w ++
                     [{| task_id := h; call := c; scheduledTime := ts;
                         state := pending |}];
        nextCronId := nextCronId w;
        nextTaskId := S h;
        now := now w;
        trace := trace w ++ [eff h] |}).

(** [ctx.scheduler.runAt(ts, fn, args)] *)
Definition scheduler_runAt (ts : Z) (c : Call) : M TaskId :=
  schedule_task (ERunAt ts c) ts c.

(** [ctx.scheduler.runAfter(delayMs, fn, args)]: as the spec describes it,
    [scheduleAt(now + delayMs, callable, payload)]. *)
Definition scheduler_runAfter (delayMs : Z) (c : Call) : M TaskId :=
  fun w => schedule_task (ERunAfter delayMs c) (now w + delayMs) c w.

Definition cancelTask (h : TaskId) (sf : ScheduledFunction)
  : ScheduledFunction :=
  if Nat.eqb (task_id sf) h && pendingOrInProgress (state sf)
  then {| task_id := task_id sf; call := call sf;
          scheduledTime := scheduledTime sf; state := canceled |}
  else sf.

(** [ctx.scheduler.cancel(id)]: as the spec describes it, idempotent, and a
    no-op on a task that has already finished (or that is unknown). *)
Definition scheduler_cancel (h : TaskId) : M unit :=
  fun w =>
    (Ok tt,
     {| crons := crons w;
        scheduled := map (cancelTask h) (scheduled w);
        nextCronId := nextCronId w;
        nextTaskId := nextTaskId w;
        now := now w;
        trace := trace w ++ [ECancel h] |}).

(** ** The library *)

Section Cronlib.

(** [parseArgs] from [./common]: normalises the optional argument object, or
    throws. *)
Variable parseArgs : option Args -> option Args.

(** [parser.parseExpression(cronspec, { currentDate })] from cron-parser:
    [None] when the parser throws.  Without options the current date is the
    time of the call. *)
Variable parseExpression : string -> Z -> option CronExpression.

(** [getFunctionName] and [makeFunctionReference] convert between a function
    reference and its name; a reference is represented by its name. *)
Definition getFunctionName (func : string) : string := func.
Definition makeFunctionReference (fname : string) : string := fname.

(** [list(ctx)]; the name [list] is kept for the type of lists. *)
Definition listCrons : M (list CronJob) :=
  fun w => (Ok (crons w), w).

(** [get(ctx, cronJobId)] *)
Definition get (cronJobId : CronId) : M (option CronJob) :=
  db_get cronJobId.

(** [getByName(ctx, name)]: the index lookup [q.eq("name", name)] followed by
    [.unique()]. *)
Definition getByName (n : string) : M (option CronJob) :=
  fun w => unique (filter (hasName n) (crons w)) w.

(** [del(ctx, cronJobId)] *)
Definition del (cronJobId : CronId) : M unit :=
  o <- db_get cronJobId ;;
  match o with
  | None => throw (JobNotFound cronJobId)
  | Some cronJob =>
    match schedulerJobId cronJob with
    | None => throw (NotScheduled cronJobId)
    | Some sid =>
      scheduler_cancel sid ;;;
      match executionJobId cronJob with
      | Some eid => scheduler_cancel eid
      | None => ret tt
      end ;;;
      db_delete cronJobId
    end
  end.

(** [delByName(ctx, name)] *)
Definition delByName (n : string) : M unit :=
  o <- getByName n ;;
  match o with
  | None => throw (NameNotFound n)
  | Some cronJob => del (_id cronJob)
  end.

(** [nextScheduledDate(prevDate, cronspec)] *)
Definition nextScheduledDate (prevDate : Z) (cronspec : string) : M Z :=
  match parseExpression cronspec prevDate with
  | None => throw ParserError
  | Some interval =>
    match next interval with
    | None => throw ParserError
    | Some d => ret d
    end
  end.

(** [scheduleCron(ctx, schedule, func, name, args)] *)
Definition scheduleCron (sched : Schedule) (func : string)
    (nm : option string) (a : option Args) : M CronId :=
  (* Input validation *)
  match nm with
  | Some n =>
    if truthy nm
    then o <- getByName n ;;
         if isSome o then throw (DuplicateName n) else ret tt
    else ret tt
  | None => ret tt
  end ;;;
  match sched with
  | Interval ms => if (ms <? 1000)%Z then throw InvalidInterval else ret tt
  | Cron _ => ret tt
  end ;;;
  match sched with
  | Cron cronspec =>
    fun w => match parseExpression cronspec (now w) with
             | None => throw (InvalidCronSpec cronspec) w
             | Some _ => ret tt w
             end
  | Interval _ => ret tt
  end ;;;
  match parseArgs a with
  | None => throw ArgsError
  | Some a' =>
    let fname := getFunctionName func in
    match sched with
    | Interval ms =>
      cronJobId <- db_insert fname a' nm (Interval ms) ;;
      sid <- scheduler_runAfter ms (CallRescheduler cronJobId) ;;
      db_patch cronJobId sid ;;;
      ret cronJobId
    | Cron cronspec =>
      cronJobId <- db_insert fname a' nm (Cron cronspec) ;;
      d <- (fun w => nextScheduledDate (now w) cronspec w) ;;
      sid <- scheduler_runAt d (CallRescheduler cronJobId) ;;
      db_patch cronJobId sid ;;;
      ret cronJobId
    end
  end.

(** [cron(ctx, cronspec, functionReference, ...args)] *)
Definition cron (cronspec func : string) (a : option Args) : M CronId :=
  scheduleCron (Cron cronspec) func None a.

(** [cronWithName(ctx, name, cronspec, functionReference, ...args)] *)
Definition cronWithName (n cronspec func : string) (a : option Args)
  : M CronId :=
  scheduleCron (Cron cronspec) func (Some n) a.

(** [interval(ctx, ms, func, ...args)] *)
Definition interval (ms : Z) (func : string) (a : option Args) : M CronId :=
  scheduleCron (Interval ms) func None a.

(** [intervalWithName(ctx, name, ms, func, ...args)] *)
Definition intervalWithName (n : string) (ms : Z) (func : string)
    (a : option Args) : M CronId :=
  scheduleCron (Interval ms) func (Some n) a.

(** The handler of the [rescheduler] internal mutation. *)
Definition rescheduler (cronJobId : CronId) : M unit :=
  o <- db_get cronJobId ;;
  match o with
  | None => throw (JobNotFound cronJobId)
  | Some cronJob =>
    match schedulerJobId cronJob with
    | None => throw (NotScheduled cronJobId)
    | Some sid =>
      os <- db_system_get sid ;;
      match os with
      | None => throw (ScheduledTaskNotFound sid)
      | Some schedulerJob =>
        if negb (pendingOrInProgress (state schedulerJob))
        then throw (IntegrityError (task_id schedulerJob) (state schedulerJob))
        else
          let cronFunction := makeFunctionReference (functionName cronJob) in
          stillRunning <-
            match executionJobId cronJob with
            | Some eid =>
              oe <- db_system_get eid ;;
              ret (match oe with
                   | Some executionJob =>
                     pendingOrInProgress (state executionJob)
                   | None => false
                   end)
            | None => ret false
            end ;;
          (if stillRunning : bool
           then ret tt
           else scheduler_runAfter 0 (CallFunction cronFunction (args cronJob))
                ;;; ret tt) ;;;
          (* Now reschedule the next run. *)
          match schedule cronJob with
          | Interval ms =>
            let nextTime := scheduledTime schedulerJob + ms in
            nextSchedulerJobId <-
              scheduler_runAt nextTime (CallRescheduler cronJobId) ;;
            db_patch cronJobId nextSchedulerJobId
          | Cron cronspec =>
            nextTime <-
              nextScheduledDate (scheduledTime schedulerJob) cronspec ;;
            nextSchedulerJobId <-
              scheduler_runAt nextTime (CallRescheduler cronJobId) ;;
            db_patch cronJobId nextSchedulerJobId
          end
      end
    end
  end.

End Cronlib.

(** ** Observations, invariants and the tick cycle *)

(** The store hands out fresh ids: every id in use is below its counter,
    and no two rows of [crons] share an id. *)
Definition wf (w : World) : Prop :=
  Forall (fun d => (_id d < nextCronId w)%nat) (crons w) /\
  Forall (fun sf => (task_id sf < nextTaskId w)%nat) (scheduled w) /\
  NoDup (map _id (crons w)).

(** A non-empty name is carried by at most one row. *)
Definition namesUnique (w : World) : Prop :=
  forall n, truthy (Some n) = true ->
            (List.length (filter (hasName n) (crons w)) <= 1)%nat.

(** The name is given, is not the empty string, and some row carries it. *)
Definition nameTaken (nm : option string) (w : World) : bool :=
  match nm with
  | Some n => truthy nm && existsb (hasName n) (crons w)
  | None => false
  end.

(** The three errors of input validation. *)
Definition validationError (e : Error) : bool :=
  match e with
  | DuplicateName _ | InvalidInterval | InvalidCronSpec _ => true
  | _ => false
  end.

(** Status of a task handle as the scheduler reports it; [None] is
    "not found". *)
Definition status (h : TaskId) (w : World) : option StateKind :=
  option_map state (lookupTask h (scheduled w)).

(** A reported status that still counts as an invocation under way. *)
Definition isOutstanding (o : option StateKind) : bool :=
  match o with
  | Some k => pendingOrInProgress k
  | None => false
  end.

(** Time at which the tick the row currently points to is scheduled. *)
Definition tickTime (j : CronId) (w : World) : option Z :=
  match lookupCron j (crons w) with
  | Some d =>
    match schedulerJobId d with
    | Some h => option_map scheduledTime (lookupTask h (scheduled w))
    | None => None
    end
  | None => None
  end.

(** The dispatches of user functions recorded in a trace. *)
Definition dispatches (t : list Effect) : list Effect :=
  filter isRunAfter0 t.

Definition isTick (sf : ScheduledFunction) : bool :=
  match call sf with
  | CallRescheduler _ => true
  | CallFunction _ _ => false
  end.

Definition completeTask (h : TaskId) (sf : ScheduledFunction)
  : ScheduledFunction :=
  if Nat.eqb (task_id sf) h
  then {| task_id := task_id sf; call := call sf;
          scheduledTime := scheduledTime sf; state := success |}
  else sf.

(** What the scheduler does when a task it fired has returned: as the spec
    describes it, each task fires at most once and its status becomes
    completed. *)
Definition complete (h : TaskId) (w : World) : World :=
  {| crons := crons w;
     scheduled := map (completeTask h) (scheduled w);
     nextCronId := nextCronId w;
     nextTaskId := nextTaskId w;
     now := now w;
     trace := trace w |}.

(** Exactly one outstanding tick for a row: the row points to a tick task
    for itself that is pending or in progress, and every such task is that
    one. *)
Definition oneTick (w : World) (d : CronJob) : Prop :=
  exists h sf,
    schedulerJobId d = Some h /\
    lookupTask h (scheduled w) = Some sf /\
    isTickFor (_id d) sf = true /\
    pendingOrInProgress (state sf) = true /\
    forall sf', In sf' (scheduled w) ->
                isTickFor (_id d) sf' = true ->
                pendingOrInProgress (state sf') = true ->
                task_id sf' = h.

(** Closed forms of registration, used to reason about [scheduleCron]: the
    outcome of the duplicate-name check, the world after the insert, and the
    world after the first tick has been armed and recorded on the row. *)
Definition nameCheck (nm : option string) (w : World) : Result unit :=
  match nm with
  | Some n =>
    if truthy nm
    then match filter (hasName n) (crons w) with
         | [] => Ok tt
         | [_] => Throw (DuplicateName n)
         | _ :: _ :: _ => Throw NotUnique
         end
    else Ok tt
  | None => Ok tt
  end.

Definition newRow (w : World) (f : string) (a : Args) (nm : option string)
    (s : Schedule) : CronJob :=
  {| _id := nextCronId w; functionName := f; args := a; name := nm;
     schedule := s; schedulerJobId := None; executionJobId := None |}.

Definition afterInsert (f : string) (a : Args) (nm : option string)
    (s : Schedule) (w : World) : World :=
  {| crons := crons w ++ [newRow w f a nm s];
     scheduled := scheduled w;
     nextCronId := S (nextCronId w);
     nextTaskId := nextTaskId w;
     now := now w;
     trace := trace w ++ [EInsert (nextCronId w)] |}.

Definition afterRegister (f : string) (a : Args) (nm : option string)
    (s : Schedule) (eff : Effect) (T : Z) (w : World) : World :=
  {| crons := map (fun d => if Nat.eqb (_id d) (nextCronId w)
                            then setSchedulerJobId (nextTaskId w) d else d)
                  (crons w ++ [newRow w f a nm s]);
     scheduled := scheduled w ++
                  [{| task_id := nextTaskId w;
                      call := CallRescheduler (nextCronId w);
                      scheduledTime := T; state := pending |}];
     nextCronId := S (nextCronId w);
     nextTaskId := S (nextTaskId w);
     now := now w;
     trace := trace w ++ [EInsert (nextCronId w); eff;
                          EPatch (nextCronId w) (nextTaskId w)] |}.

Section Runs.

Variable parseArgs : option Args -> option Args.
Variable parseExpression : string -> Z -> option CronExpression.

(** Closed forms of the two halves of a tick, used to reason about
    [rescheduler]: the overlap check with the optional dispatch, then the
    re-arming. *)
Definition stillRunning (d : CronJob) (w : World) : bool :=
  match executionJobId d with
  | Some eid =>
    match lookupTask eid (scheduled w) with
    | Some executionJob => pendingOrInProgress (state executionJob)
    | None => false
    end
  | None => false
  end.

Definition afterDispatch (d : CronJob) (w : World) : World :=
  if stillRunning d w then w
  else
    {| crons := crons w;
       scheduled := scheduled w ++
                    [{| task_id := nextTaskId w;
                        call := CallFunction (functionName d) (args d);
                        scheduledTime := now w + 0;
                        state := pending |}];
       nextCronId := nextCronId w;
       nextTaskId := S (nextTaskId w);
       now := now w;
       trace := trace w ++
                [ERunAfter 0 (CallFunction (functionName d) (args d))
                           (nextTaskId w)] |}.

Definition afterRearm (j : CronId) (T : Z) (w : World) : World :=
  {| crons := map (fun d => if Nat.eqb (_id d) j
                            then setSchedulerJobId (nextTaskId w) d else d)
                  (crons w);
     scheduled := scheduled w ++
                  [{| task_id := nextTaskId w; call := CallRescheduler j;
                      scheduledTime := T; state := pending |}];
     nextCronId := nextCronId w;
     nextTaskId := S (nextTaskId w);
     now := now w;
     trace := trace w ++ [ERunAt T (CallRescheduler j) (nextTaskId w);
                          EPatch j (nextTaskId w)] |}.

Definition nextFire (d : CronJob) (sj : ScheduledFunction) : option Z :=
  match schedule d with
  | Interval ms => Some (scheduledTime sj + ms)
  | Cron cronspec =>
    match parseExpression cronspec (scheduledTime sj) with
    | Some i => next i
    | None => None
    end
  end.

(** [k] registrations in a row with the same arguments. *)
Fixpoint registerAll (k : nat) (reg : M CronId) : M (list CronId) :=
  match k with
  | O => ret []
  | S k' => id <- reg ;; ids <- registerAll k' reg ;; ret (id :: ids)
  end.

End Runs.

(** ** Sample collaborators and worlds *)

(** The clock moves on. *)
Definition atTime (t : Z) (w : World) : World :=
  {| crons := crons w; scheduled := scheduled w;
     nextCronId := nextCronId w; nextTaskId := nextTaskId w;
     now := t; trace := trace w |}.

Definition sampleParseArgs (a : option Args) : option Args :=
  match a with
  | Some x => Some x
  | None => Some []
  end.

Definition dayMs : Z := 86400000.

(** A parser that knows one expression, daily at midnight UTC. *)
Definition sampleParser (cronspec : string) (currentDate : Z)
  : option CronExpression :=
  if cronspec =? "0 0 * * *"
  then Some {| next := Some ((currentDate / dayMs + 1) * dayMs) |}
  else None.

Definition run {A} (m : M A) (w : World) : World := snd (m w).

Definition sampleArgs : Args := [("n", VNumber 1)].

(** An interval job registered at time 0 with period 1000. *)
Definition world1 : World :=
  run (interval sampleParseArgs sampleParser 1000 "job" (Some sampleArgs))
      (emptyWorld 0).

(** ... after its first tick, run at time 1000, *)
Definition world2 : World :=
  run (rescheduler sampleParser 0%nat) (atTime 1000 world1).

(** ... and the same world with the first dispatch recorded on the row and
    still in progress, the first tick task completed. *)
Definition world2overlap : World :=
  {| crons := map (fun d =>
                     {| _id := _id d; functionName := functionName d;
                        args := args d; name := name d;
                        schedule := schedule d;
                        schedulerJobId := schedulerJobId d;
                        executionJobId := Some 1%nat |}) (crons world2);
     scheduled := map (fun sf =>
                         if Nat.eqb (task_id sf) 1
                         then {| task_id := task_id sf; call := call sf;
                                 scheduledTime := scheduledTime sf;
                                 state := inProgress |}
                         else sf)
                      (scheduled (complete 0%nat world2));
     nextCronId := nextCronId world2;
     nextTaskId := nextTaskId world2;
     now := 2000;
     trace := trace world2 |}.

(** The row records a dispatch handle the scheduler no longer knows. *)
Definition world2lost : World :=
  {| crons := map (fun d =>
                     {| _id := _id d; functionName := functionName d;
                        args := args d; name := name d;
                        schedule := schedule d;
                        schedulerJobId := schedulerJobId d;
                        executionJobId := Some 7%nat |}) (crons world2);
     scheduled := scheduled (complete 0%nat world2);
     nextCronId := nextCronId world2;
     nextTaskId := 8;
     now := 2000;
     trace := trace world2 |}.

(** Two jobs registered under the empty name. *)
Definition worldEmptyNames : World :=
  run (intervalWithName sampleParseArgs sampleParser EmptyString 1000 "job" None)
      (run (intervalWithName sampleParseArgs sampleParser EmptyString 1000
              "job" None)
           (emptyWorld 0)).

(** A second job, named, next to the first. *)
Definition worldNamed : World :=
  run (intervalWithName sampleParseArgs sampleParser "daily" 1000 "job" None)
      world1.

(** A daily cron job registered on 2024-01-01 at noon UTC. *)
Definition worldCron : World :=
  run (cron sampleParseArgs sampleParser "0 0 * * *" "job" None)
      (emptyWorld 1704110400000).

(** Closed form of a deletion that goes through. *)
Definition afterDel (j : CronId) (sid : TaskId) (oe : option TaskId)
    (w : World) : World :=
  {| crons := filter (fun d => negb (Nat.eqb (_id d) j)) (crons w);
     scheduled := match oe with
                  | Some eid =>
                    map (cancelTask eid) (map (cancelTask sid) (scheduled w))
                  | None => map (cancelTask sid) (scheduled w)
                  end;
     nextCronId := nextCronId w;
     nextTaskId := nextTaskId w;
     now := now w;
     trace := trace w ++ [ECancel sid] ++
              match oe with
              | Some eid => [ECancel eid]
              | None => []
              end ++ [EDelete j] |}.

(** ** The system as a whole *)

(** The scheduler reports a new status for a task (a dispatched function
    starts, finishes or fails; a failed tick is marked failed). *)
Definition setStatusTask (h : TaskId) (k : StateKind) (sf : ScheduledFunction)
  : ScheduledFunction :=
  if Nat.eqb (task_id sf) h
  then {| task_id := task_id sf; call := call sf;
          scheduledTime := scheduledTime sf; state := k |}
  else sf.

Definition setStatus (h : TaskId) (k : StateKind) (w : World) : World :=
  {| crons := crons w;
     scheduled := map (setStatusTask h k) (scheduled w);
     nextCronId := nextCronId w;
     nextTaskId := nextTaskId w;
     now := now w;
     trace := trace w |}.

(** Every tick task still under way belongs to a row: it is addressed to an
    existing row and is the tick that row points to. *)
Definition ticksOwned (w : World) : Prop :=
  forall sf, In sf (scheduled w) ->
    isTick sf = true -> pendingOrInProgress (state sf) = true ->
    exists d, In d (crons w) /\
              call sf = CallRescheduler (_id d) /\
              schedulerJobId d = Some (task_id sf).

(** What holds of every store the library can produce. *)
Definition storeInv (w : World) : Prop :=
  wf w /\
  NoDup (map task_id (scheduled w)) /\
  namesUnique w /\
  (forall d, In d (crons w) -> executionJobId d = None) /\
  (forall d, In d (crons w) -> schedulerJobId d <> None) /\
  ticksOwned w.

Section System.

Variable parseArgs : option Args -> option Args.
Variable parseExpression : string -> Z -> option CronExpression.

(** The stores that arise from the empty store through the library's entry
    points and the scheduler.  Every mutation is a transaction: one that
    throws leaves the store as it was, except that the scheduler marks a
    tick that threw as failed.  A tick is fired for the task the row points
    to and is completed when it returns. *)
Inductive reachable : World -> Prop :=
| reach_empty t : reachable (emptyWorld t)
| reach_register w sched func nm a id w' :
    reachable w ->
    scheduleCron parseArgs parseExpression sched func nm a w = (Ok id, w') ->
    reachable w'
| reach_tick w j d h w' :
    reachable w ->
    lookupCron j (crons w) = Some d -> schedulerJobId d = Some h ->
    rescheduler parseExpression j w = (Ok tt, w') ->
    reachable (complete h w')
| reach_tick_failed w j d h e w' :
    reachable w ->
    lookupCron j (crons w) = Some d -> schedulerJobId d = Some h ->
    rescheduler parseExpression j w = (Throw e, w') ->
    reachable (setStatus h failed w)
| reach_del w j w' :
    reachable w -> del j w = (Ok tt, w') -> reachable w'
| reach_delByName w n w' :
    reachable w -> delByName n w = (Ok tt, w') -> reachable w'
| reach_clock w t :
    reachable w -> reachable (atTime t w)
| reach_dispatch_status w h sf k :
    reachable w ->
    lookupTask h (scheduled w) = Some sf -> isDispatch sf = true ->
    reachable (setStatus h k w).

End System.

(** ** The verification code email *)

(** [String.prototype.slice]: an index below zero counts from the end, and
    both indices are clamped to the string. *)
Definition sliceIndex (len i : Z) : Z :=
  if (i <? 0)%Z then Z.max (len + i) 0 else Z.min i len.

Definition slice (s : string) (start : Z) (stop : option Z) : string :=
  let len := Z.of_nat (String.length s) in
  let from := sliceIndex len start in
  let to := match stop with
            | Some e => sliceIndex len e
            | None => len
            end in
  substring (Z.to_nat from) (Z.to_nat (Z.max (to - from) 0)) s.

(** The two spans of the code as [VerificationCodeEmail] renders them:
    [code.slice(0, 3)] and [code.slice(3)]. *)
Definition codeSpans (code : string) : string * string :=
  (slice code 0 (Some 3), slice code 3 None).

(** [Math.floor((+expires - Date.now()) / (60 * 1000))] *)
Definition minutesValid (expires dateNow : Z) : Z :=
  (expires - dateNow) / (60 * 1000).

(** * The library over IEEE doubles

    A JavaScript [number] is an IEEE 754 binary64 value, and the time of the
    next tick is computed with its addition.  Everything above models times
    as integers, which is enough wherever a time is only stored and passed
    on.  For the cadence of an interval job the rounding of [+] matters, so
    registration and the rescheduler are embedded once more in this module
    with [number] as the kernel's binary64 floats: the same code, line by
    line, with [ms], [scheduledTime], the clock and the parser's dates of
    type [number]. *)

Module Doubles.

Local Open Scope float_scope.

Definition number := float.

Inductive Schedule :=
| Interval (ms : number)
| Cron (cronspec : string).

Record CronJob := {
  _id : CronId;
  functionName : string;
  args : Args;
  name : option string;
  schedule : Schedule;
  schedulerJobId : option TaskId;
  executionJobId : option TaskId
}.

Record ScheduledFunction := {
  task_id : TaskId;
  call : Call;
  scheduledTime : number;
  state : StateKind
}.

Record CronExpression := { next : option number }.

Inductive Effect :=
| ERunAfter (delayMs : number) (c : Call) (h : TaskId)
| ERunAt (ts : number) (c : Call) (h : TaskId)
| EInsert (id : CronId)
| EPatch (id : CronId) (h : TaskId).

Record World := {
  crons : list CronJob;
  scheduled : list ScheduledFunction;
  nextCronId : nat;
  nextTaskId : nat;
  now : number;
  trace : list Effect
}.

Definition emptyWorld (t : number) : World :=
  {| crons := []; scheduled := []; nextCronId := 0%nat; nextTaskId := 0%nat;
     now := t; trace := [] |}.

Definition atTime (t : number) (w : World) : World :=
  {| crons := crons w; scheduled := scheduled w;
     nextCronId := nextCronId w; nextTaskId := nextTaskId w;
     now := t; trace := trace w |}.

Definition M (A : Type) := World -> Result A * World.

Definition ret {A} (a : A) : M A := fun w => (Ok a, w).
Definition throw {A} (e : Error) : M A := fun w => (Throw e, w).
Definition bind {A B} (m : M A) (k : A -> M B) : M B :=
  fun w => match m w with
           | (Ok a, w') => k a w'
           | (Throw e, w') => (Throw e, w')
           end.

Declare Scope dcron_scope.
Notation "x <- m ;; k" := (bind m (fun x => k))
  (at level 61, m at next level, right associativity) : dcron_scope.
Notation "m ;;; k" := (bind m (fun _ => k))
  (at level 61, right associativity) : dcron_scope.
Local Open Scope dcron_scope.

Definition hasName (n : string) (d : CronJob) : bool :=
  match name d with
  | Some m => (m =? n)%string
  | None => false
  end.

Definition lookupCron (id : CronId) (l : list CronJob) : option CronJob :=
  find (fun d => Nat.eqb (_id d) id) l.

Definition lookupTask (h : TaskId) (l : list ScheduledFunction)
  : option ScheduledFunction :=
  find (fun sf => Nat.eqb (task_id sf) h) l.

Definition db_get (id : CronId) : M (option CronJob) :=
  fun w => (Ok (lookupCron id (crons w)), w).

Definition db_system_get (h : TaskId) : M (option ScheduledFunction) :=
  fun w => (Ok (lookupTask h (scheduled w)), w).

Definition db_insert (f : string) (a : Args) (n : option string) (s : Schedule)
  : M CronId :=
  fun w =>
    let id := nextCronId w in
    (Ok id,
     {| crons := crons w ++
                 [{| _id := id; functionName := f; args := a; name := n;
                     schedule := s; schedulerJobId := None;
                     executionJobId := None |}];
        scheduled := scheduled w;
        nextCronId := S id;
        nextTaskId := nextTaskId w;
        now := now w;
        trace := trace w ++ [EInsert id] |}).

Definition setSchedulerJobId (h : TaskId) (d : CronJob) : CronJob :=
  {| _id := _id d; functionName := functionName d; args := args d;
     name := name d; schedule := schedule d;
     schedulerJobId := Some h; executionJobId := executionJobId d |}.

Definition db_patch (id : CronId) (h : TaskId) : M unit :=
  fun w =>
    match lookupCron id (crons w) with
    | None => (Throw (MissingDocument id), w)
    | Some _ =>
      (Ok tt,
       {| crons := map (fun d => if Nat.eqb (_id d) id
                                 then setSchedulerJobId h d else d) (crons w);
          scheduled := scheduled w;
          nextCronId := nextCronId w;
          nextTaskId := nextTaskId w;
          now := now w;
          trace := trace w ++ [EPatch id h] |})
    end.

Definition unique (l : list CronJob) : M (option CronJob) :=
  match l with
  | [] => ret None
  | [d] => ret (Some d)
  | _ :: _ :: _ => throw NotUnique
  end.

Definition schedule_task (eff : TaskId -> Effect) (ts : number) (c : Call)
  : M TaskId :=
  fun w =>
    let h := nextTaskId w in
    (Ok h,
     {| crons := crons w;
        scheduled := scheduled w ++
                     [{| task_id := h; call := c; scheduledTime := ts;
                         state := pending |}];
        nextCronId := nextCronId w;
        nextTaskId := S h;
        now := now w;
        trace := trace w ++ [eff h] |}).

(** [ctx.scheduler.runAt(ts, fn, args)] *)
Definition scheduler_runAt (ts : number) (c : Call) : M TaskId :=
  schedule_task (ERunAt ts c) ts c.

(** [ctx.scheduler.runAfter(delayMs, fn, args)]: scheduled at
    [now + delayMs], a double addition. *)
Definition scheduler_runAfter (delayMs : number) (c : Call) : M TaskId :=
  fun w => schedule_task (ERunAfter delayMs c) (now w + delayMs) c w.

Section Cronlib.

Variable parseArgs : option Args -> option Args.
Variable parseExpression : string -> number -> option CronExpression.

Definition getByName (n : string) : M (option CronJob) :=
  fun w => unique (filter (hasName n) (crons w)) w.

Definition nextScheduledDate (prevDate : number) (cronspec : string)
  : M number :=
  match parseExpression cronspec prevDate with
  | None => throw ParserError
  | Some interval =>
    match next interval with
    | None => throw ParserError
    | Some d => ret d
    end
  end.

(** [scheduleCron(ctx, schedule, func, name, args)]; the guard
    [schedule.ms < 1000] is the comparison of doubles. *)
Definition scheduleCron (sched : Schedule) (func : string)
    (nm : option string) (a : option Args) : M CronId :=
  (* Input validation *)
  match nm with
  | Some n =>
    if truthy nm
    then o <- getByName n ;;
         if isSome o then throw (DuplicateName n) else ret tt
    else ret tt
  | None => ret tt
  end ;;;
  match sched with
  | Interval ms => if ms <? 1000 then throw InvalidInterval else ret tt
  | Cron _ => ret tt
  end ;;;
  match sched with
  | Cron cronspec =>
    fun w => match parseExpression cronspec (now w) with
             | None => throw (InvalidCronSpec cronspec) w
             | Some _ => ret tt w
             end
  | Interval _ => ret tt
  end ;;;
  match parseArgs a with
  | None => throw ArgsError
  | Some a' =>
    let fname := getFunctionName func in
    match sched with
    | Interval ms =>
      cronJobId <- db_insert fname a' nm (Interval ms) ;;
      sid <- scheduler_runAfter ms (CallRescheduler cronJobId) ;;
      db_patch cronJobId sid ;;;
      ret cronJobId
    | Cron cronspec =>
      cronJobId <- db_insert fname a' nm (Cron cronspec) ;;
      d <- (fun w => nextScheduledDate (now w) cronspec w) ;;
      sid <- scheduler_runAt d (CallRescheduler cronJobId) ;;
      db_patch cronJobId sid ;;;
      ret cronJobId
    end
  end.

(** The handler of the [rescheduler] internal mutation; [nextTime] is the
    double sum [schedulerJob.scheduledTime + cronJob.schedule.ms]. *)
Definition rescheduler (cronJobId : CronId) : M unit :=
  o <- db_get cronJobId ;;
  match o with
  | None => throw (JobNotFound cronJobId)
  | Some cronJob =>
    match schedulerJobId cronJob with
    | None => throw (NotScheduled cronJobId)
    | Some sid =>
      os <- db_system_get sid ;;
      match os with
      | None => throw (ScheduledTaskNotFound sid)
      | Some schedulerJob =>
        if negb (pendingOrInProgress (state schedulerJob))
        then throw (IntegrityError (task_id schedulerJob) (state schedulerJob))
        else
          let cronFunction := makeFunctionReference (functionName cronJob) in
          stillRunning <-
            match executionJobId cronJob with
            | Some eid =>
              oe <- db_system_get eid ;;
              ret (match oe with
                   | Some executionJob =>
                     pendingOrInProgress (state executionJob)
                   | None => false
                   end)
            | None => ret false
            end ;;
          (if stillRunning : bool
           then ret tt
           else scheduler_runAfter 0 (CallFunction cronFunction (args cronJob))
                ;;; ret tt) ;;;
          (* Now reschedule the next run. *)
          match schedule cronJob with
          | Interval ms =>
            let nextTime := scheduledTime schedulerJob + ms in
            nextSchedulerJobId <-
              scheduler_runAt nextTime (CallRescheduler cronJobId) ;;
            db_patch cronJobId nextSchedulerJobId
          | Cron cronspec =>
            nextTime <-
              nextScheduledDate (scheduledTime schedulerJob) cronspec ;;
            nextSchedulerJobId <-
              scheduler_runAt nextTime (CallRescheduler cronJobId) ;;
            db_patch cronJobId nextSchedulerJobId
          end
      end
    end
  end.

End Cronlib.

(** Every id in use is below its counter. *)
Definition fresh (w : World) : Prop :=
  Forall (fun d => (_id d < nextCronId w)%nat) (crons w) /\
  Forall (fun sf => (task_id sf < nextTaskId w)%nat) (scheduled w).

(** Time at which the tick the row currently points to is scheduled. *)
Definition tickTime (j : CronId) (w : World) : option number :=
  match lookupCron j (crons w) with
  | Some d =>
    match schedulerJobId d with
    | Some h => option_map scheduledTime (lookupTask h (scheduled w))
    | None => None
    end
  | None => None
  end.

(** What anything else happening between two ticks of job [j] may do: the
    row of [j] is left alone and no task is rescheduled (task statuses may
    change, the clock may advance, other rows and tasks may come and go). *)
Definition frame (j : CronId) (w w' : World) : Prop :=
  lookupCron j (crons w') = lookupCron j (crons w) /\
  forall h sf, lookupTask h (scheduled w) = Some sf ->
               exists sf', lookupTask h (scheduled w') = Some sf' /\
                           scheduledTime sf' = scheduledTime sf.

(** Closed forms of the two halves of a tick and of a registration. *)
Definition stillRunning (d : CronJob) (w : World) : bool :=
  match executionJobId d with
  | Some eid =>
    match lookupTask eid (scheduled w) with
    | Some executionJob => pendingOrInProgress (state executionJob)
    | None => false
    end
  | None => false
  end.

Definition afterDispatch (d : CronJob) (w : World) : World :=
  if stillRunning d w then w
  else
    {| crons := crons w;
       scheduled := scheduled w ++
                    [{| task_id := nextTaskId w;
                        call := CallFunction (functionName d) (args d);
                        scheduledTime := now w + 0;
                        state := pending |}];
       nextCronId := nextCronId w;
       nextTaskId := S (nextTaskId w);
       now := now w;
       trace := trace w ++
                [ERunAfter 0 (CallFunction (functionName d) (args d))
                           (nextTaskId w)] |}.

Definition afterRearm (j : CronId) (T : number) (w : World) : World :=
  {| crons := map (fun d => if Nat.eqb (_id d) j
                            then setSchedulerJobId (nextTaskId w) d else d)
                  (crons w);
     scheduled := scheduled w ++
                  [{| task_id := nextTaskId w; call := CallRescheduler j;
                      scheduledTime := T; state := pending |}];
     nextCronId := nextCronId w;
     nextTaskId := S (nextTaskId w);
     now := now w;
     trace := trace w ++ [ERunAt T (CallRescheduler j) (nextTaskId w);
                          EPatch j (nextTaskId w)] |}.

Definition newRow (w : World) (f : string) (a : Args) (nm : option string)
    (s : Schedule) : CronJob :=
  {| _id := nextCronId w; functionName := f; args := a; name := nm;
     schedule := s; schedulerJobId := None; executionJobId := None |}.

Definition afterRegister (f : string) (a : Args) (nm : option string)
    (s : Schedule) (eff : Effect) (T : number) (w : World) : World :=
  {| crons := map (fun d => if Nat.eqb (_id d) (nextCronId w)
                            then setSchedulerJobId (nextTaskId w) d else d)
                  (crons w ++ [newRow w f a nm s]);
     scheduled := scheduled w ++
                  [{| task_id := nextTaskId w;
                      call := CallRescheduler (nextCronId w);
                      scheduledTime := T; state := pending |}];
     nextCronId := S (nextCronId w);
     nextTaskId := S (nextTaskId w);
     now := now w;
     trace := trace w ++ [EInsert (nextCronId w); eff;
                          EPatch (nextCronId w) (nextTaskId w)] |}.

Section Runs.

Variable parseArgs : option Args -> option Args.
Variable parseExpression : string -> number -> option CronExpression.

(** [armed j M t0 k w]: job [j] was registered at time [t0] as an interval
    job of period [M], [k - 1] of its ticks have returned since, and in [w]
    the row points to its [k]-th tick. *)
Inductive armed (j : CronId) (M0 t0 : number) : nat -> World -> Prop :=
| armed_register w w' func nm a :
    fresh w -> now w = t0 ->
    scheduleCron parseArgs parseExpression (Interval M0) func nm a w
      = (Ok j, w') ->
    armed j M0 t0 1%nat w'
| armed_frame k w w' :
    armed j M0 t0 k w -> frame j w w' -> fresh w' ->
    armed j M0 t0 k w'
| armed_tick k w w' :
    armed j M0 t0 k w ->
    rescheduler parseExpression j w = (Ok tt, w') ->
    armed j M0 t0 (S k) w'.

End Runs.

(** [t0 + M + ... + M], with [k] double additions from the left. *)
Definition kthTime (t0 M0 : number) (k : nat) : number :=
  Nat.iter k (fun t => t + M0) t0.

(** The exact value of a finite double, in units of 2^-1074; [None] for NaN
    and the infinities. *)
Definition exactValue (x : number) : option Z :=
  match Prim2SF x with
  | S754_zero _ => Some 0%Z
  | S754_finite s m e =>
    Some ((if s then Z.neg m else Z.pos m) * 2 ^ (e + 1074))%Z
  | S754_infinity _ => None
  | S754_nan => None
  end.

(** A parser that rejects everything, for runs of interval jobs, and the
    double nearest to 1000.1. *)
Definition noCron (cronspec : string) (currentDate : number)
  : option CronExpression := None.

Definition ms1000_1 : number := 0x1.f40cccccccccdp+9.

Definition run {A} (m : M A) (w : World) : World := snd (m w).

(** An interval job of period 1000.1 registered at time 0, and the store
    after each of its first six ticks. *)
Definition tenth1 : World :=
  run (scheduleCron sampleParseArgs noCron (Interval ms1000_1) "job" None None)
      (emptyWorld 0).

Definition tenth (k : nat) : World :=
  Nat.iter k (run (rescheduler noCron 0%nat)) tenth1.

(** An interval job of period 1000 registered at time 0. *)
Definition whole1 : World :=
  run (scheduleCron sampleParseArgs noCron (Interval 1000) "job" None None)
      (emptyWorld 0).

Definition whole (k : nat) : World :=
  Nat.iter k (run (rescheduler noCron 0%nat)) whole1.

End Doubles.

(** * Properties *)

Section Properties.

Variable parseArgs : option Args -> option Args.
Variable parseExpression : string -> Z -> option CronExpression.

Local Abbreviation scheduleCron := (scheduleCron parseArgs parseExpression).
Local Abbreviation intervalWithName := (intervalWithName parseArgs parseExpression).
Local Abbreviation rescheduler := (rescheduler parseExpression).
Local Abbreviation nextFire := (nextFire parseExpression).

(** ** Lookups in the two tables *)

Lemma lookupCron_app id l1 l2 :
  lookupCron id (l1 ++ l2) =
  match lookupCron id l1 with
  | Some d => Some d
  | None => lookupCron id l2
  end.
Proof.
  unfold lookupCron. induction l1 as [|d l1 IH]; simpl; [reflexivity|].
  destruct (Nat.eqb (_id d) id); [reflexivity|exact IH].
Qed.

Lemma lookupTask_app h l1 l2 :
  lookupTask h (l1 ++ l2) =
  match lookupTask h l1 with
  | Some sf => Some sf
  | None => lookupTask h l2
  end.
Proof.
  unfold lookupTask. induction l1 as [|sf l1 IH]; simpl; [reflexivity|].
  destruct (Nat.eqb (task_id sf) h); [reflexivity|exact IH].
Qed.

Lemma lookupCron_id id l d : lookupCron id l = Some d -> _id d = id.
Proof.
  unfold lookupCron. intros H. apply find_some in H.
  destruct H as [_ H]. now apply Nat.eqb_eq.
Qed.

Lemma lookupCron_In id l d : lookupCron id l = Some d -> In d l.
Proof. unfold lookupCron. intros H. now apply find_some in H. Qed.

Lemma lookupTask_id h l sf : lookupTask h l = Some sf -> task_id sf = h.
Proof.
  unfold lookupTask. intros H. apply find_some in H.
  destruct H as [_ H]. now apply Nat.eqb_eq.
Qed.

Lemma lookupTask_In h l sf : lookupTask h l = Some sf -> In sf l.
Proof. unfold lookupTask. intros H. now apply find_some in H. Qed.

Lemma lookupTask_fresh n l :
  Forall (fun sf => (task_id sf < n)%nat) l ->
  forall h, (n <= h)%nat -> lookupTask h l = None.
Proof.
  intros F h Hh. unfold lookupTask.
  induction F as [|sf l Hsf F IH]; simpl; [reflexivity|].
  destruct (Nat.eqb_spec (task_id sf) h); [lia|exact IH].
Qed.

Lemma lookupCron_fresh n l :
  Forall (fun d => (_id d < n)%nat) l ->
  forall id, (n <= id)%nat -> lookupCron id l = None.
Proof.
  intros F id Hid. unfold lookupCron.
  induction F as [|d l Hd F IH]; simpl; [reflexivity|].
  destruct (Nat.eqb_spec (_id d) id); [lia|exact IH].
Qed.

(** Patching the tick handle of row [j] is seen by a lookup of [j] and by no
    other lookup. *)
Lemma lookupCron_patch id j h l :
  lookupCron id (map (fun d => if Nat.eqb (_id d) j
                               then setSchedulerJobId h d else d) l) =
  option_map (fun d => if Nat.eqb id j then setSchedulerJobId h d else d)
             (lookupCron id l).
Proof.
  unfold lookupCron. induction l as [|d l IH]; simpl; [reflexivity|].
  destruct (Nat.eqb_spec (_id d) j) as [E|E]; simpl.
  - destruct (Nat.eqb_spec (_id d) id) as [E'|E']; simpl.
    + subst. now rewrite Nat.eqb_refl.
    + exact IH.
  - destruct (Nat.eqb_spec (_id d) id) as [E'|E']; simpl.
    + subst. destruct (Nat.eqb_spec (_id d) j); [contradiction|reflexivity].
    + exact IH.
Qed.

(** A status change that keeps task ids commutes with lookup. *)
Lemma lookupTask_map (f : ScheduledFunction -> ScheduledFunction) h l :
  (forall sf, task_id (f sf) = task_id sf) ->
  lookupTask h (map f l) = option_map f (lookupTask h l).
Proof.
  intros Hf. unfold lookupTask. induction l as [|sf l IH]; simpl; [reflexivity|].
  rewrite Hf. destruct (Nat.eqb (task_id sf) h); [reflexivity|exact IH].
Qed.

Lemma completeTask_id h sf : task_id (completeTask h sf) = task_id sf.
Proof. unfold completeTask. now destruct (Nat.eqb (task_id sf) h). Qed.

Lemma cancelTask_id h sf : task_id (cancelTask h sf) = task_id sf.
Proof.
  unfold cancelTask.
  now destruct (Nat.eqb (task_id sf) h && pendingOrInProgress (state sf)).
Qed.

(** ** Closed form of a tick *)

Lemma afterDispatch_crons d w : crons (afterDispatch d w) = crons w.
Proof. unfold afterDispatch. now destruct (stillRunning d w). Qed.

Lemma rescheduler_eq j w :
  rescheduler j w =
  match lookupCron j (crons w) with
  | None => (Throw (JobNotFound j), w)
  | Some d =>
    match schedulerJobId d with
    | None => (Throw (NotScheduled j), w)
    | Some h =>
      match lookupTask h (scheduled w) with
      | None => (Throw (ScheduledTaskNotFound h), w)
      | Some sj =>
        if pendingOrInProgress (state sj)
        then match nextFire d sj with
             | Some T => (Ok tt, afterRearm j T (afterDispatch d w))
             | None => (Throw ParserError, afterDispatch d w)
             end
        else (Throw (IntegrityError h (state sj)), w)
      end
    end
  end.
Proof.
  unfold rescheduler, bind, db_get, db_system_get, throw, ret.
  destruct (lookupCron j (crons w)) as [d|] eqn:Hd; [|reflexivity].
  destruct (schedulerJobId d) as [h|]; [|reflexivity].
  destruct (lookupTask h (scheduled w)) as [sj|] eqn:Hsj; [|reflexivity].
  rewrite (lookupTask_id _ _ _ Hsj).
  destruct (pendingOrInProgress (state sj)); simpl; [|reflexivity].
  assert (Hpatch : forall T w1, crons w1 = crons w ->
            db_patch j (nextTaskId w1)
              (snd (scheduler_runAt T (CallRescheduler j) w1))
            = (Ok tt, afterRearm j T w1)).
  { intros T w1 Hc.
    unfold db_patch, scheduler_runAt, schedule_task, afterRearm; simpl.
    rewrite Hc, Hd, <- app_assoc. reflexivity. }
  unfold nextFire, afterDispatch, stillRunning, nextScheduledDate.
  destruct (executionJobId d) as [e|].
  - destruct (lookupTask e (scheduled w)) as [ej|].
    + destruct (pendingOrInProgress (state ej)); simpl;
        (destruct (schedule d) as [ms|c];
         [ apply Hpatch; reflexivity
         | destruct (parseExpression c (scheduledTime sj)) as [i|];
           [ destruct (next i); [apply Hpatch; reflexivity|reflexivity]
           | reflexivity ] ]).
    + simpl. destruct (schedule d) as [ms|c];
         [ apply Hpatch; reflexivity
         | destruct (parseExpression c (scheduledTime sj)) as [i|];
           [ destruct (next i); [apply Hpatch; reflexivity|reflexivity]
           | reflexivity ] ].
  - simpl. destruct (schedule d) as [ms|c];
         [ apply Hpatch; reflexivity
         | destruct (parseExpression c (scheduledTime sj)) as [i|];
           [ destruct (next i); [apply Hpatch; reflexivity|reflexivity]
           | reflexivity ] ].
Qed.

(** ** Closed form of registration *)

Lemma lookupCron_newRow w f a nm s :
  exists d, lookupCron (nextCronId w) (crons w ++ [newRow w f a nm s]) = Some d.
Proof.
  rewrite lookupCron_app.
  destruct (lookupCron (nextCronId w) (crons w)) as [d|]; [now exists d|].
  unfold lookupCron; simpl. rewrite Nat.eqb_refl. eauto.
Qed.

Lemma scheduleCron_eq sched func nm a w :
  scheduleCron sched func nm a w =
  match nameCheck nm w with
  | Throw e => (Throw e, w)
  | Ok _ =>
    match sched with
    | Interval ms =>
      if (ms <? 1000)%Z then (Throw InvalidInterval, w)
      else match parseArgs a with
           | None => (Throw ArgsError, w)
           | Some a' =>
             (Ok (nextCronId w),
              afterRegister func a' nm sched
                (ERunAfter ms (CallRescheduler (nextCronId w)) (nextTaskId w))
                (now w + ms) w)
           end
    | Cron c =>
      match parseExpression c (now w) with
      | None => (Throw (InvalidCronSpec c), w)
      | Some i =>
        match parseArgs a with
        | None => (Throw ArgsError, w)
        | Some a' =>
          match next i with
          | None => (Throw ParserError, afterInsert func a' nm sched w)
          | Some T =>
            (Ok (nextCronId w),
             afterRegister func a' nm sched
               (ERunAt T (CallRescheduler (nextCronId w)) (nextTaskId w))
               T w)
          end
        end
      end
    end
  end.
Proof.
  assert (Hrest :
    (match sched with
     | Interval ms => if (ms <? 1000)%Z then throw InvalidInterval else ret tt
     | Cron _ => ret tt
     end ;;;
     match sched with
     | Cron cronspec =>
       fun w => match parseExpression cronspec (now w) with
                | None => throw (InvalidCronSpec cronspec) w
                | Some _ => ret tt w
                end
     | Interval _ => ret tt
     end ;;;
     match parseArgs a with
     | None => throw ArgsError
     | Some a' =>
       let fname := getFunctionName func in
       match sched with
       | Interval ms =>
         cronJobId <- db_insert fname a' nm (Interval ms) ;;
         sid <- scheduler_runAfter ms (CallRescheduler cronJobId) ;;
         db_patch cronJobId sid ;;;
         ret cronJobId
       | Cron cronspec =>
         cronJobId <- db_insert fname a' nm (Cron cronspec) ;;
         d <- (fun w => nextScheduledDate parseExpression (now w) cronspec w) ;;
         sid <- scheduler_runAt d (CallRescheduler cronJobId) ;;
         db_patch cronJobId sid ;;;
         ret cronJobId
       end
     end) w =
    match sched with
    | Interval ms =>
      if (ms <? 1000)%Z then (Throw InvalidInterval, w)
      else match parseArgs a with
           | None => (Throw ArgsError, w)
           | Some a' =>
             (Ok (nextCronId w),
              afterRegister func a' nm sched
                (ERunAfter ms (CallRescheduler (nextCronId w)) (nextTaskId w))
                (now w + ms) w)
           end
    | Cron c =>
      match parseExpression c (now w) with
      | None => (Throw (InvalidCronSpec c), w)
      | Some i =>
        match parseArgs a with
        | None => (Throw ArgsError, w)
        | Some a' =>
          match next i with
          | None => (Throw ParserError, afterInsert func a' nm sched w)
          | Some T =>
            (Ok (nextCronId w),
             afterRegister func a' nm sched
               (ERunAt T (CallRescheduler (nextCronId w)) (nextTaskId w))
               T w)
          end
        end
      end
    end).
  { unfold bind, throw, ret, getFunctionName.
    destruct sched as [ms|c].
    - destruct (ms <? 1000)%Z; [reflexivity|].
      destruct (parseArgs a) as [a'|]; [|reflexivity].
      unfold db_insert, scheduler_runAfter, schedule_task, db_patch; simpl.
      destruct (lookupCron_newRow w func a' nm (Interval ms)) as [d Hd].
      unfold newRow in Hd. rewrite Hd.
      unfold afterRegister, newRow. rewrite <- !app_assoc. reflexivity.
    - destruct (parseExpression c (now w)) as [i|] eqn:Hp; [|reflexivity].
      destruct (parseArgs a) as [a'|]; [|reflexivity].
      unfold db_insert, nextScheduledDate, throw, ret; simpl. rewrite Hp.
      destruct (next i) as [T|]; [|reflexivity].
      unfold scheduler_runAt, schedule_task, db_patch; simpl.
      destruct (lookupCron_newRow w func a' nm (Cron c)) as [d Hd].
      unfold newRow in Hd. rewrite Hd.
      unfold afterRegister, newRow. rewrite <- !app_assoc. reflexivity. }
  unfold scheduleCron.
  unfold bind at 1.
  unfold nameCheck.
  destruct nm as [n|].
  - destruct (truthy (Some n)).
    + unfold bind at 1. unfold getByName, unique.
      destruct (filter (hasName n) (crons w)) as [|d1 [|d2 l]];
        unfold ret, throw; simpl; try reflexivity.
      exact Hrest.
    + unfold ret at 1. exact Hrest.
  - unfold ret at 1. exact Hrest.
Qed.

(** ** The integrity check at tick entry *)

(** C6. At tick entry the rescheduler looks up the status of the tick handle
    stored on the row; when that status is neither pending nor in progress
    (the handle may also be unknown), the tick stops with an error that
    leaves the handler, and nothing has been dispatched, scheduled or
    patched. *)
Theorem rescheduler_integrity_check j w d h :
  lookupCron j (crons w) = Some d ->
  schedulerJobId d = Some h ->
  status h w <> Some pending ->
  status h w <> Some inProgress ->
  rescheduler j w =
  (Throw (match status h w with
          | Some k => IntegrityError h k
          | None => ScheduledTaskNotFound h
          end), w).
Proof.
  intros Hd Hh Hp Hi. rewrite rescheduler_eq, Hd, Hh.
  unfold status in *.
  destruct (lookupTask h (scheduled w)) as [sj|]; simpl in *; [|reflexivity].
  destruct (state sj); simpl; try reflexivity; congruence.
Qed.

(** The allowance is exactly pending and in progress: with such a status the
    tick is never stopped by the integrity check. *)
Lemma rescheduler_integrity_pass j w d h k :
  lookupCron j (crons w) = Some d ->
  schedulerJobId d = Some h ->
  status h w = Some k ->
  pendingOrInProgress k = true ->
  fst (rescheduler j w) = Ok tt \/ fst (rescheduler j w) = Throw ParserError.
Proof.
  intros Hd Hh Hs Hk. rewrite rescheduler_eq, Hd, Hh.
  unfold status in Hs.
  destruct (lookupTask h (scheduled w)) as [sj|]; simpl in Hs; [|discriminate].
  injection Hs as ->. rewrite Hk.
  destruct (nextFire d sj); simpl; auto.
Qed.

(** ** The overlap check and the dispatch *)

Lemma dispatches_app t1 t2 :
  dispatches (t1 ++ t2) = dispatches t1 ++ dispatches t2.
Proof. apply filter_app. Qed.

Lemma afterRearm_dispatches j T w :
  dispatches (trace (afterRearm j T w)) = dispatches (trace w) /\
  filter isDispatch (scheduled (afterRearm j T w)) =
  filter isDispatch (scheduled w).
Proof.
  unfold afterRearm; simpl. rewrite dispatches_app, filter_app; simpl.
  now rewrite !app_nil_r.
Qed.

Lemma afterDispatch_skip d w :
  stillRunning d w = true -> afterDispatch d w = w.
Proof. unfold afterDispatch. now intros ->. Qed.

(** No path through a tick ever writes [executionJobId]. *)
Lemma rescheduler_keeps_executionJobId j w id :
  option_map executionJobId (lookupCron id (crons (snd (rescheduler j w)))) =
  option_map executionJobId (lookupCron id (crons w)).
Proof.
  rewrite rescheduler_eq.
  destruct (lookupCron j (crons w)) as [d|]; [|reflexivity].
  destruct (schedulerJobId d) as [h|]; [|reflexivity].
  destruct (lookupTask h (scheduled w)) as [sj|]; [|reflexivity].
  destruct (pendingOrInProgress (state sj)); [|reflexivity].
  destruct (nextFire d sj) as [T|]; simpl.
  - rewrite lookupCron_patch, afterDispatch_crons.
    destruct (lookupCron id (crons w)) as [d0|]; simpl; [|reflexivity].
    now destruct (Nat.eqb id j).
  - now rewrite afterDispatch_crons.
Qed.

(** C2. When the row records a dispatch handle whose status is pending or in
    progress, the tick, however it ends, dispatches nothing (no zero-delay
    call of a user function is made and no dispatch task is created) and
    leaves the recorded dispatch handle as it was. *)
Theorem rescheduler_overlap_suppression j w d e ej :
  lookupCron j (crons w) = Some d ->
  executionJobId d = Some e ->
  lookupTask e (scheduled w) = Some ej ->
  pendingOrInProgress (state ej) = true ->
  forall r w', rescheduler j w = (r, w') ->
    dispatches (trace w') = dispatches (trace w) /\
    filter isDispatch (scheduled w') = filter isDispatch (scheduled w) /\
    option_map executionJobId (lookupCron j (crons w')) = Some (Some e).
Proof.
  intros Hd He Hej Hk r w' Hr.
  assert (Hstill : stillRunning d w = true).
  { unfold stillRunning. now rewrite He, Hej. }
  split; [|split].
  - rewrite rescheduler_eq, Hd in Hr.
    destruct (schedulerJobId d) as [h|]; [|now inversion Hr].
    destruct (lookupTask h (scheduled w)) as [sj|]; [|now inversion Hr].
    destruct (pendingOrInProgress (state sj)); [|now inversion Hr].
    rewrite (afterDispatch_skip _ _ Hstill) in Hr.
    destruct (nextFire d sj) as [T|]; inversion Hr; subst; [|reflexivity].
    apply afterRearm_dispatches.
  - rewrite rescheduler_eq, Hd in Hr.
    destruct (schedulerJobId d) as [h|]; [|now inversion Hr].
    destruct (lookupTask h (scheduled w)) as [sj|]; [|now inversion Hr].
    destruct (pendingOrInProgress (state sj)); [|now inversion Hr].
    rewrite (afterDispatch_skip _ _ Hstill) in Hr.
    destruct (nextFire d sj) as [T|]; inversion Hr; subst; [|reflexivity].
    apply afterRearm_dispatches.
  - pose proof (rescheduler_keeps_executionJobId j w j) as K.
    rewrite Hr in K; simpl in K. now rewrite K, Hd; simpl; rewrite He.
Qed.

(** C10. When the row records a dispatch handle that the scheduler does not
    know, a tick that passed its integrity check dispatches: the first thing
    it does is the zero-delay call of the target function with the row's
    arguments, which creates a pending dispatch task, and the tick then goes
    on to re-arm (for an interval job it returns normally). *)
Theorem rescheduler_dispatches_when_handle_unknown j w d h sj e :
  lookupCron j (crons w) = Some d ->
  schedulerJobId d = Some h ->
  lookupTask h (scheduled w) = Some sj ->
  pendingOrInProgress (state sj) = true ->
  executionJobId d = Some e ->
  status e w = None ->
  exists r w' rest,
    rescheduler j w = (r, w') /\
    trace w' = trace w ++
               ERunAfter 0 (CallFunction (functionName d) (args d))
                         (nextTaskId w) :: rest /\
    In {| task_id := nextTaskId w;
          call := CallFunction (functionName d) (args d);
          scheduledTime := now w + 0; state := pending |} (scheduled w') /\
    (r = Ok tt \/ r = Throw ParserError) /\
    (forall ms, schedule d = Interval ms -> r = Ok tt).
Proof.
  intros Hd Hh Hsj Hk He Hst.
  assert (Hstill : stillRunning d w = false).
  { unfold stillRunning. rewrite He. unfold status in Hst.
    now destruct (lookupTask e (scheduled w)). }
  rewrite rescheduler_eq, Hd, Hh, Hsj, Hk.
  unfold afterDispatch. rewrite Hstill.
  destruct (nextFire d sj) as [T|] eqn:HT.
  - eexists _, _, _. split; [reflexivity|]. simpl.
    split; [now rewrite <- app_assoc|].
    split; [apply in_or_app; left; apply in_or_app; right; now left|].
    split; [now left|reflexivity].
  - eexists _, _, []. split; [reflexivity|]. simpl.
    split; [reflexivity|].
    split; [apply in_or_app; right; now left|].
    split; [now right|].
    intros ms Hs. unfold nextFire in HT. now rewrite Hs in HT.
Qed.

(** ** Well-formedness is kept by every operation *)

Lemma map_id_patch j h l :
  map _id (map (fun d => if Nat.eqb (_id d) j
                         then setSchedulerJobId h d else d) l) = map _id l.
Proof.
  rewrite map_map. apply map_ext. intros d.
  now destruct (Nat.eqb (_id d) j).
Qed.

Lemma Forall_id_patch (P : nat -> Prop) j h l :
  Forall (fun d => P (_id d)) l ->
  Forall (fun d => P (_id d))
         (map (fun d => if Nat.eqb (_id d) j
                        then setSchedulerJobId h d else d) l).
Proof.
  intros F. apply Forall_map. eapply Forall_impl; [|exact F].
  intros d Hd. simpl. now destruct (Nat.eqb (_id d) j).
Qed.

Lemma wf_afterDispatch d w : wf w -> wf (afterDispatch d w).
Proof.
  intros (Hc & Ht & Hn). unfold afterDispatch.
  destruct (stillRunning d w); [now repeat split|].
  repeat split; simpl; try assumption.
  apply Forall_app. split.
  - eapply Forall_impl; [|exact Ht]. simpl. intros; lia.
  - constructor; [simpl; lia|constructor].
Qed.

Lemma wf_afterRearm j T w : wf w -> wf (afterRearm j T w).
Proof.
  intros (Hc & Ht & Hn). repeat split; simpl.
  - now apply (Forall_id_patch (fun i => (i < nextCronId w)%nat)).
  - apply Forall_app. split.
    + eapply Forall_impl; [|exact Ht]. simpl. intros; lia.
    + constructor; [simpl; lia|constructor].
  - now rewrite map_id_patch.
Qed.

Lemma wf_rescheduler j w : wf w -> wf (snd (rescheduler j w)).
Proof.
  intros Hw. rewrite rescheduler_eq.
  destruct (lookupCron j (crons w)) as [d|]; [|exact Hw].
  destruct (schedulerJobId d) as [h|]; [|exact Hw].
  destruct (lookupTask h (scheduled w)) as [sj|]; [|exact Hw].
  destruct (pendingOrInProgress (state sj)); [|exact Hw].
  destruct (nextFire d sj) as [T|]; simpl.
  - now apply wf_afterRearm, wf_afterDispatch.
  - now apply wf_afterDispatch.
Qed.

Lemma NoDup_ids_snoc w f a nm s :
  wf w -> NoDup (map _id (crons w ++ [newRow w f a nm s])).
Proof.
  intros (Hc & _ & Hn). rewrite map_app; simpl.
  apply NoDup_app; repeat split.
  - exact Hn.
  - constructor; [intros []|constructor].
  - intros i Hi [<-|[]]. apply in_map_iff in Hi. destruct Hi as (d & E & Hd).
    rewrite Forall_forall in Hc. specialize (Hc d Hd). lia.
Qed.

Lemma wf_afterInsert f a nm s w : wf w -> wf (afterInsert f a nm s w).
Proof.
  intros Hw. pose proof (NoDup_ids_snoc w f a nm s Hw) as Hnd.
  destruct Hw as (Hc & Ht & Hn). repeat split; simpl; try assumption.
  apply Forall_app. split.
  - eapply Forall_impl; [|exact Hc]. simpl. intros; lia.
  - constructor; [simpl; lia|constructor].
Qed.

Lemma wf_afterRegister f a nm s eff T w :
  wf w -> wf (afterRegister f a nm s eff T w).
Proof.
  intros Hw. pose proof (NoDup_ids_snoc w f a nm s Hw) as Hnd.
  destruct Hw as (Hc & Ht & Hn). repeat split; simpl.
  - apply (Forall_id_patch (fun i => (i < S (nextCronId w))%nat)).
    apply Forall_app. split.
    + eapply Forall_impl; [|exact Hc]. simpl. intros; lia.
    + constructor; [simpl; lia|constructor].
  - apply Forall_app. split.
    + eapply Forall_impl; [|exact Ht]. simpl. intros; lia.
    + constructor; [simpl; lia|constructor].
  - now rewrite map_id_patch.
Qed.

Lemma wf_scheduleCron sched func nm a w :
  wf w -> wf (snd (scheduleCron sched func nm a w)).
Proof.
  intros Hw. rewrite scheduleCron_eq.
  destruct (nameCheck nm w); [|exact Hw].
  destruct sched as [ms|c].
  - destruct (ms <? 1000)%Z; [exact Hw|].
    destruct (parseArgs a); [|exact Hw]. now apply wf_afterRegister.
  - destruct (parseExpression c (now w)) as [i|]; [|exact Hw].
    destruct (parseArgs a); [|exact Hw].
    destruct (next i); simpl.
    + now apply wf_afterRegister.
    + now apply wf_afterInsert.
Qed.

Lemma wf_emptyWorld t : wf (emptyWorld t).
Proof. repeat split; simpl; constructor. Qed.

Lemma wf_complete h w : wf w -> wf (complete h w).
Proof.
  intros (Hc & Ht & Hn). repeat split; simpl; try assumption.
  apply Forall_map. eapply Forall_impl; [|exact Ht].
  intros sf. simpl. now rewrite completeTask_id.
Qed.

(** With distinct ids, a row is the one its id looks up. *)
Lemma lookupCron_NoDup l :
  NoDup (map _id l) ->
  forall d, In d l -> lookupCron (_id d) l = Some d.
Proof.
  unfold lookupCron. induction l as [|x l IH]; intros Hn d Hin; [destruct Hin|].
  simpl in *. inversion Hn as [|? ? Hx Hn']; subst.
  destruct Hin as [->|Hin].
  - now rewrite Nat.eqb_refl.
  - destruct (Nat.eqb_spec (_id x) (_id d)) as [E|E].
    + exfalso. apply Hx. rewrite E. now apply in_map.
    + now apply IH.
Qed.

(** ** Re-arming *)

Lemma completeTask_call h sf : call (completeTask h sf) = call sf.
Proof. unfold completeTask. now destruct (Nat.eqb (task_id sf) h). Qed.

Lemma completeTask_outstanding h sf :
  pendingOrInProgress (state (completeTask h sf)) = true ->
  task_id sf <> h /\ completeTask h sf = sf.
Proof.
  unfold completeTask. destruct (Nat.eqb_spec (task_id sf) h); simpl.
  - discriminate.
  - now split.
Qed.

Lemma completeTask_other h sf : task_id sf <> h -> completeTask h sf = sf.
Proof.
  unfold completeTask. intros H.
  now destruct (Nat.eqb_spec (task_id sf) h).
Qed.

Lemma afterDispatch_scheduled d w :
  exists D,
    scheduled (afterDispatch d w) = scheduled w ++ D /\
    Forall (fun s => isTick s = false) D /\
    (nextTaskId w <= nextTaskId (afterDispatch d w))%nat /\
    trace (afterDispatch d w) =
    trace w ++ (if stillRunning d w then []
                else [ERunAfter 0 (CallFunction (functionName d) (args d))
                                (nextTaskId w)]).
Proof.
  unfold afterDispatch. destruct (stillRunning d w).
  - exists []. rewrite !app_nil_r. repeat split; auto.
  - eexists. simpl. repeat split; auto.
Qed.

Lemma filter_none {A} (p : A -> bool) l :
  Forall (fun x => p x = false) l -> filter p l = [].
Proof.
  induction 1 as [|x l Hx _ IH]; simpl; [reflexivity|]. now rewrite Hx.
Qed.

Lemma isTickFor_isTick j sf : isTickFor j sf = true -> isTick sf = true.
Proof. unfold isTickFor, isTick. now destruct (call sf). Qed.

(** The step from one tick to the next, for the row that ticked: the tick
    that has just run is completed and the row's one outstanding tick is the
    new one. *)
Lemma oneTick_rearm_own w j d h D T n' w2 :
  oneTick w d ->
  _id d = j ->
  schedulerJobId d = Some h ->
  Forall (fun s => isTick s = false) D ->
  Forall (fun s => (task_id s < n')%nat) (scheduled w ++ D) ->
  scheduled w2 =
    map (completeTask h)
        ((scheduled w ++ D) ++
         [{| task_id := n'; call := CallRescheduler j;
             scheduledTime := T; state := pending |}]) ->
  oneTick w2 (setSchedulerJobId n' d).
Proof.
  intros (h0 & sf0 & Hp0 & Hl0 & Ht0 & Ho0 & Hu0) Ej Hh HD Hfresh Hs2.
  rewrite Hh in Hp0. injection Hp0 as <-. rewrite Ej in *.
  set (nt := {| task_id := n'; call := CallRescheduler j;
                scheduledTime := T; state := pending |}) in *.
  assert (Hh_lt : (h < n')%nat).
  { pose proof (lookupTask_In _ _ _ Hl0) as Hi.
    rewrite (Forall_forall _ _) in Hfresh.
    specialize (Hfresh sf0 (in_or_app _ _ _ (or_introl Hi))).
    rewrite (lookupTask_id _ _ _ Hl0) in Hfresh. exact Hfresh. }
  exists n', nt. simpl. rewrite Ej.
  split; [reflexivity|].
  split.
  { rewrite Hs2, (lookupTask_map _ _ _ (completeTask_id h)).
    rewrite lookupTask_app, (lookupTask_fresh _ _ Hfresh n' (le_n _)).
    unfold lookupTask; simpl. rewrite Nat.eqb_refl; simpl.
    f_equal. apply completeTask_other. simpl. lia. }
  split; [unfold isTickFor; simpl; now apply Nat.eqb_eq|].
  split; [reflexivity|].
  intros sf' Hi Ht' Ho'. rewrite Hs2 in Hi. apply in_map_iff in Hi.
  destruct Hi as (s0 & <- & Hi).
  apply in_app_or in Hi. destruct Hi as [Hi|[<-|[]]].
  - apply in_app_or in Hi. destruct Hi as [Hi|Hi].
    + destruct (completeTask_outstanding _ _ Ho') as [Hne Heq].
      rewrite Heq in *. exfalso. apply Hne. apply Hu0; assumption.
    + rewrite Forall_forall in HD. specialize (HD _ Hi).
      unfold isTickFor in Ht'. rewrite completeTask_call in Ht'.
      unfold isTick in HD. destruct (call s0); discriminate.
  - now rewrite completeTask_id.
Qed.

(** The same step for any other row that had its one outstanding tick: it
    still has it. *)
Lemma oneTick_rearm_other w j d h D T n' w2 d0 :
  oneTick w d -> oneTick w d0 ->
  _id d = j -> _id d0 <> j ->
  schedulerJobId d = Some h ->
  Forall (fun s => isTick s = false) D ->
  scheduled w2 =
    map (completeTask h)
        ((scheduled w ++ D) ++
         [{| task_id := n'; call := CallRescheduler j;
             scheduledTime := T; state := pending |}]) ->
  oneTick w2 d0.
Proof.
  intros (hd & sfd & Hpd & Hld & Htd & _)
         (h0 & sf0 & Hp0 & Hl0 & Ht0 & Ho0 & Hu0) Ej Ej0 Hh HD Hs2.
  rewrite Hh in Hpd. injection Hpd as <-. rewrite Ej in Htd.
  assert (Hne : h0 <> h).
  { intros ->. rewrite Hl0 in Hld. injection Hld as <-.
    unfold isTickFor in *. destruct (call sf0); [|discriminate].
    apply Nat.eqb_eq in Ht0, Htd. congruence. }
  exists h0, sf0.
  split; [exact Hp0|].
  split.
  { rewrite Hs2, (lookupTask_map _ _ _ (completeTask_id h)).
    rewrite <- app_assoc, lookupTask_app, Hl0. simpl.
    f_equal. apply completeTask_other.
    now rewrite (lookupTask_id _ _ _ Hl0). }
  split; [exact Ht0|]. split; [exact Ho0|].
  intros sf' Hi Ht' Ho'. rewrite Hs2 in Hi. apply in_map_iff in Hi.
  destruct Hi as (s0 & <- & Hi).
  apply in_app_or in Hi. destruct Hi as [Hi|[<-|[]]].
  - apply in_app_or in Hi. destruct Hi as [Hi|Hi].
    + destruct (completeTask_outstanding _ _ Ho') as [_ Heq].
      rewrite Heq in *. apply Hu0; assumption.
    + rewrite Forall_forall in HD. specialize (HD _ Hi).
      unfold isTickFor in Ht'. rewrite completeTask_call in Ht'.
      unfold isTick in HD. destruct (call s0); discriminate.
  - unfold isTickFor in Ht'. rewrite completeTask_call in Ht'.
    simpl in Ht'. apply Nat.eqb_eq in Ht'. congruence.
Qed.

(** C8. A tick that returns normally has armed exactly one new tick, for the
    same job, under a handle never used before, and has recorded that handle
    as the row's [schedulerJobId], whether or not it dispatched.  This needs
    nothing of the store but fresh ids.  The invariant is kept row by row,
    whatever state the other rows are in: when the row that ticked had
    exactly one outstanding tick (the one running), then, once that tick is
    completed, it has exactly one again (the new one), and every other row
    that had exactly one outstanding tick is unchanged and still has exactly
    that one. *)
Theorem rescheduler_rearms j w w' :
  wf w ->
  rescheduler j w = (Ok tt, w') ->
  exists d h T h',
    lookupCron j (crons w) = Some d /\
    schedulerJobId d = Some h /\
    status h' w = None /\
    filter isTick (scheduled w') =
      filter isTick (scheduled w) ++
      [{| task_id := h'; call := CallRescheduler j;
          scheduledTime := T; state := pending |}] /\
    trace w' =
      trace w ++
      (if stillRunning d w then []
       else [ERunAfter 0 (CallFunction (functionName d) (args d))
                       (nextTaskId w)]) ++
      [ERunAt T (CallRescheduler j) h'; EPatch j h'] /\
    option_map schedulerJobId (lookupCron j (crons w')) = Some (Some h') /\
    status h' w' = Some pending /\
    wf w' /\
    (oneTick w d ->
     (exists d', lookupCron j (crons (complete h w')) = Some d' /\
                 oneTick (complete h w') d') /\
     (forall d0, In d0 (crons w) -> _id d0 <> j -> oneTick w d0 ->
                 In d0 (crons (complete h w')) /\
                 oneTick (complete h w') d0)).
Proof.
  intros Hw Hr.
  pose proof (wf_rescheduler j w Hw) as Hw'. rewrite Hr in Hw'. simpl in Hw'.
  rewrite rescheduler_eq in Hr.
  destruct (lookupCron j (crons w)) as [d|] eqn:Hd; [|discriminate].
  destruct (schedulerJobId d) as [h|] eqn:Hh; [|discriminate].
  destruct (lookupTask h (scheduled w)) as [sj|] eqn:Hsj; [|discriminate].
  destruct (pendingOrInProgress (state sj)) eqn:Hk; [|discriminate].
  destruct (nextFire d sj) as [T|] eqn:HT; [|discriminate].
  injection Hr as <-.
  destruct (afterDispatch_scheduled d w) as (D & HsD & HD & Hle & Htr).
  pose proof (wf_afterDispatch d w Hw) as (_ & Hw1 & _).
  exists d, h, T, (nextTaskId (afterDispatch d w)).
  destruct Hw as (Hwc & Hwt & Hwn).
  assert (Hnone : lookupTask (nextTaskId (afterDispatch d w))
                             (scheduled (afterDispatch d w)) = None)
    by (apply (lookupTask_fresh _ _ Hw1); lia).
  split; [reflexivity|]. split; [exact Hh|].
  split.
  { unfold status. now rewrite (lookupTask_fresh _ _ Hwt _ Hle). }
  split.
  { simpl. rewrite HsD, !filter_app; simpl.
    now rewrite (filter_none _ _ HD), app_nil_r. }
  split.
  { simpl. now rewrite Htr, <- app_assoc. }
  split.
  { simpl. rewrite lookupCron_patch, afterDispatch_crons, Hd. simpl.
    now rewrite Nat.eqb_refl. }
  split.
  { unfold status. simpl. rewrite lookupTask_app, Hnone.
    unfold lookupTask; simpl. now rewrite Nat.eqb_refl. }
  split; [exact Hw'|].
  intros Hone.
  assert (Hsched :
    scheduled (complete h (afterRearm j T (afterDispatch d w))) =
    map (completeTask h)
        ((scheduled w ++ D) ++
         [{| task_id := nextTaskId (afterDispatch d w);
             call := CallRescheduler j; scheduledTime := T;
             state := pending |}]))
    by (simpl; now rewrite HsD).
  split.
  - exists (setSchedulerJobId (nextTaskId (afterDispatch d w)) d). split.
    + simpl. rewrite lookupCron_patch, afterDispatch_crons, Hd. simpl.
      now rewrite Nat.eqb_refl.
    + apply (oneTick_rearm_own w j d h D T _ _ Hone
               (lookupCron_id _ _ _ Hd) Hh HD); [|exact Hsched].
      now rewrite <- HsD.
  - intros d0 Hd0 Hj0 Hone0. split.
    + simpl. rewrite afterDispatch_crons. apply in_map_iff.
      exists d0. split; [|exact Hd0].
      now destruct (Nat.eqb_spec (_id d0) j).
    + exact (oneTick_rearm_other w j d h D T _ _ d0 Hone Hone0
               (lookupCron_id _ _ _ Hd) Hj0 Hh HD Hsched).
Qed.

(** ** Interval cadence *)

Lemma tickTime_afterRegister f a nm s eff T w :
  wf w ->
  tickTime (nextCronId w) (afterRegister f a nm s eff T w) = Some T /\
  option_map schedule
    (lookupCron (nextCronId w) (crons (afterRegister f a nm s eff T w)))
  = Some s.
Proof.
  intros (Hc & Ht & _). unfold tickTime; simpl.
  rewrite lookupCron_patch, lookupCron_app.
  rewrite (lookupCron_fresh _ _ Hc _ (le_n _)).
  unfold lookupCron at 1; simpl. rewrite !Nat.eqb_refl; simpl.
  rewrite lookupTask_app, (lookupTask_fresh _ _ Ht _ (le_n _)).
  unfold lookupTask; simpl. now rewrite Nat.eqb_refl.
Qed.

(** One tick of an interval job: the new tick is scheduled at the scheduled
    time of the tick that is running plus the period; the clock plays no
    part. *)
Lemma tickTime_rescheduler j w w' d ms :
  wf w ->
  lookupCron j (crons w) = Some d ->
  schedule d = Interval ms ->
  rescheduler j w = (Ok tt, w') ->
  tickTime j w' = option_map (fun T => T + ms) (tickTime j w) /\
  tickTime j w' <> None /\
  option_map schedule (lookupCron j (crons w')) = Some (Interval ms).
Proof.
  intros Hw Hd Hs Hr. rewrite rescheduler_eq, Hd in Hr.
  unfold tickTime at 2. rewrite Hd.
  destruct (schedulerJobId d) as [h|]; [|discriminate].
  destruct (lookupTask h (scheduled w)) as [sj|]; [|discriminate].
  destruct (pendingOrInProgress (state sj)); [|discriminate].
  unfold nextFire in Hr. rewrite Hs in Hr. injection Hr as <-.
  pose proof (wf_afterDispatch d w Hw) as (_ & Hw1 & _).
  unfold tickTime; simpl.
  rewrite lookupCron_patch, afterDispatch_crons, Hd; simpl.
  rewrite Nat.eqb_refl; simpl.
  rewrite lookupTask_app, (lookupTask_fresh _ _ Hw1 _ (le_n _)).
  unfold lookupTask; simpl. rewrite Nat.eqb_refl; simpl.
  rewrite Hs. repeat split. discriminate.
Qed.

(** ** Deletion *)

Lemma lookupCron_deleted j l :
  lookupCron j (filter (fun d => negb (Nat.eqb (_id d) j)) l) = None.
Proof.
  unfold lookupCron. induction l as [|d l IH]; simpl; [reflexivity|].
  destruct (Nat.eqb (_id d) j) eqn:E; simpl; [exact IH|].
  now rewrite E.
Qed.

Lemma status_cancel_same h l :
  isOutstanding (option_map state (lookupTask h (map (cancelTask h) l)))
  = false.
Proof.
  rewrite (lookupTask_map _ _ _ (cancelTask_id h)).
  destruct (lookupTask h l) as [sf|] eqn:Hl; simpl; [|reflexivity].
  unfold cancelTask. rewrite (lookupTask_id _ _ _ Hl), Nat.eqb_refl. simpl.
  now destruct (pendingOrInProgress (state sf)) eqn:E.
Qed.

Lemma status_cancel_mono h h' l :
  isOutstanding (option_map state (lookupTask h l)) = false ->
  isOutstanding (option_map state (lookupTask h (map (cancelTask h') l)))
  = false.
Proof.
  rewrite (lookupTask_map _ _ _ (cancelTask_id h')).
  destruct (lookupTask h l) as [sf|]; simpl; [|reflexivity].
  unfold cancelTask.
  now destruct (Nat.eqb (task_id sf) h' && pendingOrInProgress (state sf)).
Qed.

(** C5. For a row that exists and has its tick handle set, [del] cancels the
    tick handle, then cancels the dispatch handle when the row has one, then
    deletes the row, in that order and doing nothing else; it returns
    normally, neither handle is pending or in progress afterwards, and a
    following [get] of the id finds nothing. *)
Theorem del_cancels_and_deletes j w d sid :
  lookupCron j (crons w) = Some d ->
  schedulerJobId d = Some sid ->
  exists w',
    del j w = (Ok tt, w') /\
    trace w' = trace w ++ [ECancel sid] ++
               match executionJobId d with
               | Some eid => [ECancel eid]
               | None => []
               end ++ [EDelete j] /\
    isOutstanding (status sid w') = false /\
    (forall eid, executionJobId d = Some eid ->
                 isOutstanding (status eid w') = false) /\
    crons w' = filter (fun x => negb (Nat.eqb (_id x) j)) (crons w) /\
    get j w' = (Ok None, w').
Proof.
  intros Hd Hs.
  unfold del, bind, db_get, throw, ret. rewrite Hd, Hs.
  unfold scheduler_cancel at 1.
  destruct (executionJobId d) as [eid|].
  - unfold scheduler_cancel, db_delete; simpl. rewrite Hd.
    eexists. split; [reflexivity|]. simpl.
    split; [now rewrite <- !app_assoc|].
    split; [apply status_cancel_mono, status_cancel_same|].
    split; [intros e' E; injection E as <-; apply status_cancel_same|].
    split; [reflexivity|].
    unfold get, db_get; simpl. now rewrite lookupCron_deleted.
  - unfold db_delete; simpl. rewrite Hd.
    eexists. split; [reflexivity|]. simpl.
    split; [now rewrite <- !app_assoc|].
    split; [apply status_cancel_same|].
    split; [discriminate|].
    split; [reflexivity|].
    unfold get, db_get; simpl. now rewrite lookupCron_deleted.
Qed.


(** With several rows under one name, [delByName] stops in the lookup. *)
Lemma delByName_several n w d1 d2 l :
  filter (hasName n) (crons w) = d1 :: d2 :: l ->
  delByName n w = (Throw NotUnique, w).
Proof.
  intros H. unfold delByName, getByName, bind. now rewrite H.
Qed.

(** ** Input validation *)

Lemma existsb_filter_nil {A} (p : A -> bool) l :
  existsb p l = false <-> filter p l = [].
Proof.
  induction l as [|x l IH]; simpl; [tauto|].
  destruct (p x); simpl; [split; discriminate|exact IH].
Qed.

(** On a store whose non-empty names are unique, the duplicate-name check
    throws exactly when the name is taken. *)
Lemma nameCheck_unique nm w :
  namesUnique w ->
  nameCheck nm w =
  if nameTaken nm w
  then Throw (DuplicateName (match nm with Some n => n | None => EmptyString end))
  else Ok tt.
Proof.
  intros Hu. unfold nameCheck, nameTaken.
  destruct nm as [n|]; [|reflexivity].
  destruct (truthy (Some n)) eqn:Ht; [|reflexivity]. simpl.
  specialize (Hu n Ht).
  destruct (existsb (hasName n) (crons w)) eqn:He.
  - destruct (filter (hasName n) (crons w)) as [|d1 [|d2 l]] eqn:Hf.
    + apply existsb_filter_nil in Hf. congruence.
    + reflexivity.
    + simpl in Hu. lia.
  - apply existsb_filter_nil in He. now rewrite He.
Qed.

(** X18.  On a store whose non-empty names are unique,
    [scheduleCron] throws a validation error in exactly three cases, checked
    in this order and before anything is written: "already exists" when a
    non-empty name is given and some row carries it; "interval must be >=
    1000ms" for an interval below 1000; "invalid cronspec" for a cron
    expression the parser rejects.  In every other case validation passes:
    no validation error is thrown, and an interval registration (so one with
    [ms = 1000]) whose arguments parse returns the new id. *)
Theorem scheduleCron_validation sched func nm a w :
  namesUnique w ->
  (nameTaken nm w = true ->
   exists n, nm = Some n /\
             scheduleCron sched func nm a w = (Throw (DuplicateName n), w)) /\
  (nameTaken nm w = false ->
   forall ms, sched = Interval ms -> ms < 1000 ->
              scheduleCron sched func nm a w = (Throw InvalidInterval, w)) /\
  (nameTaken nm w = false ->
   forall c, sched = Cron c -> parseExpression c (now w) = None ->
             scheduleCron sched func nm a w = (Throw (InvalidCronSpec c), w)) /\
  (nameTaken nm w = false ->
   (forall ms, sched = Interval ms -> 1000 <= ms) ->
   (forall c, sched = Cron c -> parseExpression c (now w) <> None) ->
   (forall e, fst (scheduleCron sched func nm a w) = Throw e ->
              validationError e = false) /\
   (forall ms a', sched = Interval ms -> parseArgs a = Some a' ->
                  fst (scheduleCron sched func nm a w) = Ok (nextCronId w))).
Proof.
  intros Hu. rewrite scheduleCron_eq, (nameCheck_unique nm w Hu).
  split; [|split; [|split]].
  - intros Ht. rewrite Ht. unfold nameTaken in Ht.
    destruct nm as [n|]; [|discriminate]. now exists n.
  - intros Ht ms -> Hms. rewrite Ht.
    now destruct (Z.ltb_spec ms 1000); [|lia].
  - intros Ht c -> Hp. now rewrite Ht, Hp.
  - intros Ht Hms Hc. rewrite Ht. split.
    + intros e. destruct sched as [ms|c].
      * specialize (Hms ms eq_refl).
        destruct (Z.ltb_spec ms 1000); [lia|].
        destruct (parseArgs a); simpl; intros E; [discriminate|].
        now injection E as <-.
      * specialize (Hc c eq_refl).
        destruct (parseExpression c (now w)) as [i|]; [|contradiction].
        destruct (parseArgs a); simpl; [|intros E; now injection E as <-].
        destruct (next i); simpl; intros E; [discriminate|].
        now injection E as <-.
    + intros ms a' -> Ha. specialize (Hms ms eq_refl).
      destruct (Z.ltb_spec ms 1000); [lia|]. now rewrite Ha.
Qed.

(** Uniqueness of non-empty names is kept by registration, by ticks and by
    deletion, and holds of the empty store. *)
Lemma filter_hasName_patch n j h l :
  filter (hasName n) (map (fun d => if Nat.eqb (_id d) j
                                    then setSchedulerJobId h d else d) l)
  = map (fun d => if Nat.eqb (_id d) j then setSchedulerJobId h d else d)
        (filter (hasName n) l).
Proof.
  induction l as [|d l IH]; simpl; [reflexivity|].
  replace (hasName n (if Nat.eqb (_id d) j then setSchedulerJobId h d else d))
    with (hasName n d) by (now destruct (Nat.eqb (_id d) j)).
  destruct (hasName n d); simpl; now rewrite IH.
Qed.

Lemma namesUnique_emptyWorld t : namesUnique (emptyWorld t).
Proof. intros n _. simpl. lia. Qed.

Lemma namesUnique_scheduleCron sched func nm a w :
  namesUnique w -> namesUnique (snd (scheduleCron sched func nm a w)).
Proof.
  intros Hu. rewrite scheduleCron_eq.
  destruct (nameCheck nm w) eqn:Hn; [|exact Hu].
  assert (Hins : forall f a' s n, truthy (Some n) = true ->
            (List.length (filter (hasName n)
                       (crons w ++ [newRow w f a' nm s])) <= 1)%nat).
  { intros f a' s n Ht. rewrite filter_app, length_app. simpl.
    unfold hasName at 2; simpl.
    destruct nm as [m|]; [|simpl; specialize (Hu n Ht); lia].
    destruct (String.eqb_spec m n) as [->|Hne];
      [|simpl; specialize (Hu n Ht); lia].
    unfold nameCheck in Hn. rewrite Ht in Hn.
    destruct (filter (hasName n) (crons w)) as [|d1 [|d2 l]];
      [simpl; lia|discriminate|discriminate]. }
  destruct sched as [ms|c].
  - destruct (ms <? 1000)%Z; [exact Hu|].
    destruct (parseArgs a) as [a'|]; [|exact Hu].
    intros n Ht. simpl. rewrite filter_hasName_patch, length_map.
    now apply Hins.
  - destruct (parseExpression c (now w)) as [i|]; [|exact Hu].
    destruct (parseArgs a) as [a'|]; [|exact Hu].
    destruct (next i); intros n Ht; simpl.
    + rewrite filter_hasName_patch, length_map. now apply Hins.
    + now apply Hins.
Qed.

Lemma namesUnique_rescheduler j w :
  namesUnique w -> namesUnique (snd (rescheduler j w)).
Proof.
  intros Hu. rewrite rescheduler_eq.
  destruct (lookupCron j (crons w)) as [d|]; [|exact Hu].
  destruct (schedulerJobId d) as [h|]; [|exact Hu].
  destruct (lookupTask h (scheduled w)) as [sj|]; [|exact Hu].
  destruct (pendingOrInProgress (state sj)); [|exact Hu].
  destruct (nextFire d sj) as [T|]; intros n Ht; simpl.
  - rewrite filter_hasName_patch, length_map, afterDispatch_crons.
    now apply Hu.
  - rewrite afterDispatch_crons. now apply Hu.
Qed.

Lemma del_ok_crons j w d sid :
  lookupCron j (crons w) = Some d ->
  schedulerJobId d = Some sid ->
  exists w', del j w = (Ok tt, w') /\
             crons w' = filter (fun x => negb (Nat.eqb (_id x) j)) (crons w).
Proof.
  intros Hd Hs. unfold del, bind, db_get, throw, ret. rewrite Hd, Hs.
  unfold scheduler_cancel at 1.
  destruct (executionJobId d) as [eid|];
    unfold scheduler_cancel, db_delete; simpl; rewrite Hd; eauto.
Qed.

Lemma namesUnique_del j w : namesUnique w -> namesUnique (snd (del j w)).
Proof.
  intros Hu.
  destruct (lookupCron j (crons w)) as [d|] eqn:Hd.
  - destruct (schedulerJobId d) as [sid|] eqn:Hs.
    + destruct (del_ok_crons j w d sid Hd Hs) as (w' & -> & Hc).
      intros n Ht. simpl. rewrite Hc.
      specialize (Hu n Ht).
      assert (Hle : forall (p q : CronJob -> bool) l,
                (List.length (filter p (filter q l)) <= List.length (filter p l))%nat).
      { intros p q l. induction l as [|x l IH]; simpl; [lia|].
        destruct (q x); simpl; destruct (p x); simpl; lia. }
      specialize (Hle (hasName n)
                      (fun x => negb (Nat.eqb (_id x) j)) (crons w)). lia.
    + unfold del, bind, db_get, throw. now rewrite Hd, Hs.
  - unfold del, bind, db_get, throw. now rewrite Hd.
Qed.

Lemma wf_del j w : wf w -> wf (snd (del j w)).
Proof.
  intros Hw. unfold del, bind, db_get, throw, ret.
  destruct (lookupCron j (crons w)) as [d|] eqn:Hd; [|exact Hw].
  destruct (schedulerJobId d) as [sid|]; [|exact Hw].
  destruct Hw as (Hc & Ht & Hn).
  assert (Hcancel : forall h l n,
            Forall (fun sf => (task_id sf < n)%nat) l ->
            Forall (fun sf => (task_id sf < n)%nat) (map (cancelTask h) l)).
  { intros h l n F. apply Forall_map. eapply Forall_impl; [|exact F].
    intros sf. simpl. now rewrite cancelTask_id. }
  assert (Hfilter : Forall (fun x => (_id x < nextCronId w)%nat)
                      (filter (fun x => negb (Nat.eqb (_id x) j)) (crons w)) /\
                    NoDup (map _id (filter (fun x => negb (Nat.eqb (_id x) j))
                                           (crons w)))).
  { split.
    - apply Forall_forall. intros x Hx. apply filter_In in Hx.
      rewrite Forall_forall in Hc. now apply Hc.
    - clear Hd Hc. induction (crons w) as [|x l IH]; simpl; [constructor|].
      inversion Hn as [|? ? Hx Hn']; subst.
      destruct (negb (Nat.eqb (_id x) j)); simpl; [|now apply IH].
      constructor; [|now apply IH].
      intros Hi. apply Hx. apply in_map_iff in Hi.
      destruct Hi as (y & E & Hy). apply filter_In in Hy.
      apply in_map_iff. exists y. tauto. }
  unfold scheduler_cancel at 1.
  destruct (executionJobId d) as [eid|];
    unfold scheduler_cancel, db_delete; simpl; rewrite Hd; simpl;
    (split; [tauto|split; [|tauto]]); simpl; auto.
Qed.

(** ** The empty name *)

(** C9. A registration under the empty name never throws "already exists",
    whatever the store holds: the name test fails before the lookup is made.
    Registering an interval job under the empty name any number of times in
    a row succeeds every time, and each registration adds one more row
    named by the empty string to those already there. *)
Theorem empty_name_skips_duplicate_check :
  (forall sched func a w n,
     fst (scheduleCron sched func (Some EmptyString) a w)
     <> Throw (DuplicateName n)) /\
  (forall k ms func a a' w,
     1000 <= ms -> parseArgs a = Some a' ->
     exists ids w',
       registerAll k (intervalWithName EmptyString ms func a) w = (Ok ids, w') /\
       List.length ids = k /\
       List.length (filter (hasName EmptyString) (crons w')) =
       (List.length (filter (hasName EmptyString) (crons w)) + k)%nat).
Proof.
  split.
  - intros sched func a w n. rewrite scheduleCron_eq. simpl.
    destruct sched as [ms|c].
    + destruct (ms <? 1000)%Z; [discriminate|].
      now destruct (parseArgs a).
    + destruct (parseExpression c (now w)) as [i|]; [|discriminate].
      destruct (parseArgs a); [|discriminate].
      now destruct (next i).
  - intros k ms func a a' w Hms Ha. revert w.
    induction k as [|k IH]; intros w.
    + exists [], w. simpl. repeat split. lia.
    + simpl. unfold bind at 1. unfold intervalWithName at 1.
      rewrite scheduleCron_eq. simpl.
      destruct (Z.ltb_spec ms 1000); [lia|]. rewrite Ha.
      match goal with
      | |- context [afterRegister ?f ?x ?n ?s ?e ?t ?w0] =>
        destruct (IH (afterRegister f x n s e t w0))
          as (ids & w' & Hr & Hl & Hc)
      end.
      unfold bind. rewrite Hr. unfold ret.
      eexists _, w'. split; [reflexivity|]. split; [simpl; lia|].
      rewrite Hc. simpl.
      rewrite filter_hasName_patch, length_map, filter_app, length_app.
      simpl. lia.
Qed.

(** * Further properties of the library *)

Local Abbreviation interval := (interval parseArgs parseExpression).
Local Abbreviation reachable := (reachable parseArgs parseExpression).

(** ** Registration *)

Lemma map_patch_fresh n h l :
  Forall (fun d => (_id d < n)%nat) l ->
  map (fun d => if Nat.eqb (_id d) n then setSchedulerJobId h d else d) l = l.
Proof.
  induction 1 as [|d l Hd _ IH]; simpl; [reflexivity|].
  rewrite IH. destruct (Nat.eqb_spec (_id d) n); [lia|reflexivity].
Qed.

Lemma afterRegister_crons f a nm s eff T w :
  wf w ->
  crons (afterRegister f a nm s eff T w) =
  crons w ++ [{| _id := nextCronId w; functionName := f; args := a;
                 name := nm; schedule := s;
                 schedulerJobId := Some (nextTaskId w);
                 executionJobId := None |}].
Proof.
  intros (Hc & _ & _). simpl. rewrite map_app, (map_patch_fresh _ _ _ Hc).
  simpl. now rewrite Nat.eqb_refl.
Qed.

(** Shape of a successful registration, whatever the schedule. *)
Lemma scheduleCron_ok_inv sched func nm a w id w' :
  scheduleCron sched func nm a w = (Ok id, w') ->
  exists a' eff T,
    nameCheck nm w = Ok tt /\
    parseArgs a = Some a' /\
    id = nextCronId w /\
    w' = afterRegister func a' nm sched eff T w /\
    match sched with
    | Interval ms =>
      1000 <= ms /\ T = now w + ms /\
      eff = ERunAfter ms (CallRescheduler (nextCronId w)) (nextTaskId w)
    | Cron c =>
      (exists i, parseExpression c (now w) = Some i /\ next i = Some T) /\
      eff = ERunAt T (CallRescheduler (nextCronId w)) (nextTaskId w)
    end.
Proof.
  rewrite scheduleCron_eq. intros H.
  destruct (nameCheck nm w) as [[]|]; [|discriminate].
  destruct sched as [ms|c].
  - destruct (Z.ltb_spec ms 1000); [discriminate|].
    destruct (parseArgs a) as [a'|]; [|discriminate].
    injection H as <- <-. eexists a', _, _. repeat split. assumption.
  - destruct (parseExpression c (now w)) as [i|] eqn:Hp; [|discriminate].
    destruct (parseArgs a) as [a'|]; [|discriminate].
    destruct (next i) as [T|] eqn:Hn; [|discriminate].
    injection H as <- <-. eexists a', _, T. repeat split. now exists i.
Qed.

(** X1. A registration that returns has done exactly three things, in
    order: inserted one row under an id never used before, scheduled one
    pending tick for that id (at now + ms for an interval, at the parser's
    next date after now for a cron expression), and recorded the tick's
    handle on the row.  The row carries the function name, the parsed
    arguments, the name and the schedule as given and no dispatch handle; it
    comes last in the table, the older rows are untouched, and [get] of the
    returned id finds it. *)
Theorem scheduleCron_registers sched func nm a w id w' :
  wf w ->
  scheduleCron sched func nm a w = (Ok id, w') ->
  exists a' T eff,
    let row := {| _id := id; functionName := func; args := a'; name := nm;
                  schedule := sched; schedulerJobId := Some (nextTaskId w);
                  executionJobId := None |} in
    parseArgs a = Some a' /\
    lookupCron id (crons w) = None /\
    crons w' = crons w ++ [row] /\
    scheduled w' = scheduled w ++
                   [{| task_id := nextTaskId w; call := CallRescheduler id;
                       scheduledTime := T; state := pending |}] /\
    status (nextTaskId w) w = None /\
    trace w' = trace w ++ [EInsert id; eff; EPatch id (nextTaskId w)] /\
    match sched with
    | Interval ms =>
      T = now w + ms /\
      eff = ERunAfter ms (CallRescheduler id) (nextTaskId w)
    | Cron c =>
      (exists i, parseExpression c (now w) = Some i /\ next i = Some T) /\
      eff = ERunAt T (CallRescheduler id) (nextTaskId w)
    end /\
    get id w' = (Ok (Some row), w').
Proof.
  intros Hw H.
  destruct (scheduleCron_ok_inv _ _ _ _ _ _ _ H)
    as (a' & eff & T & _ & Ha & -> & -> & Hs).
  pose proof (afterRegister_crons func a' nm sched eff T w Hw) as Hc.
  destruct Hw as (Hwc & Hwt & Hwn).
  exists a', T, eff. cbv zeta.
  split; [exact Ha|].
  split; [apply (lookupCron_fresh _ _ Hwc); lia|].
  split; [exact Hc|].
  split; [reflexivity|].
  split; [unfold status; now rewrite (lookupTask_fresh _ _ Hwt _ (le_n _))|].
  split; [reflexivity|].
  split.
  - destruct sched as [ms|c]; tauto.
  - unfold get, db_get. rewrite Hc, lookupCron_app.
    rewrite (lookupCron_fresh _ _ Hwc _ (le_n _)).
    unfold lookupCron; simpl. now rewrite Nat.eqb_refl.
Qed.

(** X2. A job registered under a non-empty name is found by [getByName]
    right away: the lookup returns the row of the returned id, with the
    schedule and function it was registered with. *)
Theorem register_then_getByName sched func n a w id w' :
  truthy (Some n) = true ->
  scheduleCron sched func (Some n) a w = (Ok id, w') ->
  exists d,
    getByName n w' = (Ok (Some d), w') /\
    _id d = id /\ name d = Some n /\
    schedule d = sched /\ functionName d = func /\
    schedulerJobId d = Some (nextTaskId w).
Proof.
  intros Ht H.
  destruct (scheduleCron_ok_inv _ _ _ _ _ _ _ H)
    as (a' & eff & T & Hn & Ha & -> & -> & _).
  unfold nameCheck in Hn. rewrite Ht in Hn.
  destruct (filter (hasName n) (crons w)) as [|d1 [|d2 l]] eqn:Hf;
    try discriminate.
  unfold getByName. simpl.
  rewrite filter_hasName_patch, filter_app, Hf. simpl.
  unfold hasName at 1; simpl. rewrite String.eqb_refl. simpl.
  rewrite Nat.eqb_refl. eexists. split; [reflexivity|]. now repeat split.
Qed.

(** X3. Once a job is registered under a non-empty name, every further
    registration under that name, whatever its schedule, function and
    arguments, throws "already exists" and leaves the store as it is. *)
Theorem register_twice_same_name sched func n a w id w' sched2 func2 a2 :
  truthy (Some n) = true ->
  scheduleCron sched func (Some n) a w = (Ok id, w') ->
  scheduleCron sched2 func2 (Some n) a2 w' = (Throw (DuplicateName n), w').
Proof.
  intros Ht H.
  destruct (scheduleCron_ok_inv _ _ _ _ _ _ _ H)
    as (a' & eff & T & Hn & Ha & -> & -> & _).
  unfold nameCheck in Hn. rewrite Ht in Hn.
  destruct (filter (hasName n) (crons w)) as [|d1 [|d2 l]] eqn:Hf;
    try discriminate.
  rewrite scheduleCron_eq. unfold nameCheck. rewrite Ht. simpl.
  rewrite filter_hasName_patch, filter_app, Hf. simpl.
  unfold hasName at 1; simpl. now rewrite String.eqb_refl.
Qed.

(** X4. The outcome of the unnamed entry point [interval] does not depend on
    what the store holds: it throws "interval must be >= 1000ms" exactly
    when [ms < 1000], otherwise fails only if the arguments do not parse,
    and otherwise returns the store's next id. *)
Theorem interval_outcome ms func a w :
  fst (interval ms func a w) =
  if (ms <? 1000)%Z then Throw InvalidInterval
  else match parseArgs a with
       | None => Throw ArgsError
       | Some _ => Ok (nextCronId w)
       end.
Proof.
  unfold interval. rewrite scheduleCron_eq. simpl.
  destruct (ms <? 1000)%Z; [reflexivity|].
  now destruct (parseArgs a).
Qed.

(** ** Deletion, continued *)

Lemma del_eq j w :
  del j w =
  match lookupCron j (crons w) with
  | None => (Throw (JobNotFound j), w)
  | Some d =>
    match schedulerJobId d with
    | None => (Throw (NotScheduled j), w)
    | Some sid => (Ok tt, afterDel j sid (executionJobId d) w)
    end
  end.
Proof.
  unfold del, bind, db_get, throw, ret.
  destruct (lookupCron j (crons w)) as [d|] eqn:Hd; [|reflexivity].
  destruct (schedulerJobId d) as [sid|]; [|reflexivity].
  unfold scheduler_cancel at 1, afterDel.
  destruct (executionJobId d) as [eid|];
    unfold scheduler_cancel, db_delete; simpl; rewrite Hd;
    now rewrite <- !app_assoc.
Qed.

Lemma filter_other_fresh n l :
  Forall (fun d => (_id d < n)%nat) l ->
  filter (fun d => negb (Nat.eqb (_id d) n)) l = l.
Proof.
  induction 1 as [|d l Hd _ IH]; simpl; [reflexivity|].
  rewrite IH. destruct (Nat.eqb_spec (_id d) n); [lia|reflexivity].
Qed.

Lemma map_cancel_fresh n l :
  Forall (fun sf => (task_id sf < n)%nat) l ->
  map (cancelTask n) l = l.
Proof.
  induction 1 as [|sf l Hsf _ IH]; simpl; [reflexivity|].
  rewrite IH. unfold cancelTask.
  destruct (Nat.eqb_spec (task_id sf) n); [lia|reflexivity].
Qed.

(** X5. Deleting a job right after registering it undoes the registration:
    [del] of the returned id goes through, the table of rows is what it was
    before the registration, the tick that was armed is canceled, and no
    other task's status changes. *)
Theorem register_then_del sched func nm a w id w' :
  wf w ->
  scheduleCron sched func nm a w = (Ok id, w') ->
  exists w'',
    del id w' = (Ok tt, w'') /\
    crons w'' = crons w /\
    status (nextTaskId w) w'' = Some canceled /\
    (forall h, h <> nextTaskId w -> status h w'' = status h w) /\
    trace w'' = trace w' ++ [ECancel (nextTaskId w); EDelete id].
Proof.
  intros Hw H.
  destruct (scheduleCron_ok_inv _ _ _ _ _ _ _ H)
    as (a' & eff & T & _ & Ha & -> & -> & _).
  pose proof (afterRegister_crons func a' nm sched eff T w Hw) as Hc.
  destruct Hw as (Hwc & Hwt & Hwn).
  rewrite del_eq, Hc, lookupCron_app.
  rewrite (lookupCron_fresh _ _ Hwc _ (le_n _)).
  unfold lookupCron; simpl. rewrite Nat.eqb_refl. simpl.
  eexists. split; [reflexivity|]. simpl.
  split.
  { rewrite map_app, (map_patch_fresh _ _ _ Hwc), filter_app,
      (filter_other_fresh _ _ Hwc). simpl.
    rewrite Nat.eqb_refl. simpl. rewrite Nat.eqb_refl. simpl.
    apply app_nil_r. }
  assert (Hsch :
    scheduled (afterDel (nextCronId w) (nextTaskId w) None
                 (afterRegister func a' nm sched eff T w)) =
    scheduled w ++ [{| task_id := nextTaskId w;
                       call := CallRescheduler (nextCronId w);
                       scheduledTime := T; state := canceled |}]).
  { simpl. rewrite map_app, (map_cancel_fresh _ _ Hwt). simpl.
    unfold cancelTask; simpl. now rewrite Nat.eqb_refl. }
  unfold status. rewrite Hsch.
  split.
  { rewrite lookupTask_app, (lookupTask_fresh _ _ Hwt _ (le_n _)).
    unfold lookupTask; simpl. now rewrite Nat.eqb_refl. }
  split; [|reflexivity].
  intros h Hh. rewrite lookupTask_app.
  destruct (lookupTask h (scheduled w)); [reflexivity|].
  unfold lookupTask; simpl.
  now destruct (Nat.eqb_spec (nextTaskId w) h); [congruence|].
Qed.

(** X6. A deleted job is gone for every later call: after a [del] that went
    through, [get] of the id finds nothing, a second [del] throws
    "not found", and a tick that still fires for the id throws "not found"
    as well, neither of them dispatching, scheduling or writing anything. *)
Theorem deleted_job_is_gone j w w' :
  del j w = (Ok tt, w') ->
  get j w' = (Ok None, w') /\
  del j w' = (Throw (JobNotFound j), w') /\
  rescheduler j w' = (Throw (JobNotFound j), w').
Proof.
  rewrite del_eq. intros H.
  destruct (lookupCron j (crons w)) as [d|]; [|discriminate].
  destruct (schedulerJobId d) as [sid|]; [|discriminate].
  injection H as <-.
  assert (Hn : lookupCron j (crons (afterDel j sid (executionJobId d) w)) = None)
    by apply lookupCron_deleted.
  unfold get, db_get. rewrite del_eq, rescheduler_eq, Hn. now repeat split.
Qed.

Lemma lookupCron_filter_other j id l :
  id <> j ->
  lookupCron id (filter (fun d => negb (Nat.eqb (_id d) j)) l) = lookupCron id l.
Proof.
  intros Hne. unfold lookupCron. induction l as [|d l IH]; simpl; [reflexivity|].
  destruct (Nat.eqb_spec (_id d) j) as [E|E]; simpl.
  - destruct (Nat.eqb_spec (_id d) id); [congruence|exact IH].
  - now rewrite IH.
Qed.

Lemma lookupTask_cancel_other h h' l :
  h <> h' ->
  lookupTask h (map (cancelTask h') l) = lookupTask h l.
Proof.
  intros Hne. rewrite (lookupTask_map _ _ _ (cancelTask_id h')).
  destruct (lookupTask h l) as [sf|] eqn:Hl; simpl; [|reflexivity].
  unfold cancelTask. rewrite (lookupTask_id _ _ _ Hl).
  now destruct (Nat.eqb_spec h h'); [congruence|].
Qed.

(** X10. [del] touches nothing but its own job: every other row is still
    found, unchanged, and every task other than the two handles of the
    deleted row keeps its status; the id counters do not move, so no id is
    ever handed out again. *)
Theorem del_leaves_others_alone j w w' d :
  lookupCron j (crons w) = Some d ->
  del j w = (Ok tt, w') ->
  (forall id, id <> j ->
              lookupCron id (crons w') = lookupCron id (crons w)) /\
  (forall h, schedulerJobId d <> Some h -> executionJobId d <> Some h ->
             lookupTask h (scheduled w') = lookupTask h (scheduled w)) /\
  nextCronId w' = nextCronId w /\ nextTaskId w' = nextTaskId w.
Proof.
  intros Hd H. rewrite del_eq, Hd in H.
  destruct (schedulerJobId d) as [sid|]; [|discriminate].
  injection H as <-. simpl.
  split; [intros id Hne; now apply lookupCron_filter_other|].
  split; [|now split].
  intros h Hs He.
  destruct (executionJobId d) as [eid|].
  - rewrite !lookupTask_cancel_other; congruence.
  - rewrite lookupTask_cancel_other; congruence.
Qed.

(** ** Ticks, continued *)

(** What a row is apart from its tick handle. *)
Lemma patch_keeps_fields j h d :
  let d' := if Nat.eqb (_id d) j then setSchedulerJobId h d else d in
  _id d' = _id d /\ functionName d' = functionName d /\ args d' = args d /\
  name d' = name d /\ schedule d' = schedule d /\
  executionJobId d' = executionJobId d.
Proof. simpl. now destruct (Nat.eqb (_id d) j). Qed.

(** X7. Whatever its outcome, a tick of job [j] changes nothing of any row
    except the tick handle of the row of [j]: rows are neither added nor
    removed nor reordered, every other row is found unchanged, and on the
    row of [j] name, function, arguments, schedule and dispatch handle stay
    as they are.  It never cancels or alters a scheduled task either: the
    tasks it found are all still there, in the same state, followed by the
    ones it created. *)
Theorem rescheduler_leaves_others_alone j w r w' :
  rescheduler j w = (r, w') ->
  map _id (crons w') = map _id (crons w) /\
  (forall id, id <> j ->
              lookupCron id (crons w') = lookupCron id (crons w)) /\
  (forall d, lookupCron j (crons w) = Some d ->
     exists d', lookupCron j (crons w') = Some d' /\
                functionName d' = functionName d /\ args d' = args d /\
                name d' = name d /\ schedule d' = schedule d /\
                executionJobId d' = executionJobId d) /\
  (exists new, scheduled w' = scheduled w ++ new /\
               (List.length new <= 2)%nat) /\
  nextCronId w' = nextCronId w.
Proof.
  intros H.
  assert (Hsame : w' = w -> 
    map _id (crons w') = map _id (crons w) /\
    (forall id, id <> j ->
                lookupCron id (crons w') = lookupCron id (crons w)) /\
    (forall d, lookupCron j (crons w) = Some d ->
       exists d', lookupCron j (crons w') = Some d' /\
                  functionName d' = functionName d /\ args d' = args d /\
                  name d' = name d /\ schedule d' = schedule d /\
                  executionJobId d' = executionJobId d) /\
    (exists new, scheduled w' = scheduled w ++ new /\
                 (List.length new <= 2)%nat) /\
    nextCronId w' = nextCronId w).
  { intros ->. split; [reflexivity|]. split; [reflexivity|].
    split; [intros d Hd; exists d; now repeat split|].
    split; [|reflexivity]. exists []. rewrite app_nil_r. simpl. split; [reflexivity|lia]. }
  rewrite rescheduler_eq in H.
  destruct (lookupCron j (crons w)) as [d|] eqn:Hd;
    [|injection H as _ <-; now apply Hsame].
  destruct (schedulerJobId d) as [h|];
    [|injection H as _ <-; now apply Hsame].
  destruct (lookupTask h (scheduled w)) as [sj|];
    [|injection H as _ <-; now apply Hsame].
  destruct (pendingOrInProgress (state sj));
    [|injection H as _ <-; now apply Hsame].
  assert (HD : exists D, scheduled (afterDispatch d w) = scheduled w ++ D /\
                         (List.length D <= 1)%nat /\
                         nextCronId (afterDispatch d w) = nextCronId w).
  { unfold afterDispatch. destruct (stillRunning d w).
    - exists []. rewrite app_nil_r. simpl. repeat split. lia.
    - eexists. simpl. repeat split. simpl. lia. }
  destruct HD as (D & HsD & HlD & HnD).
  destruct (nextFire d sj) as [T|]; injection H as _ <-.
  - simpl. rewrite afterDispatch_crons.
    split; [apply map_id_patch|].
    split.
    { intros id Hne. rewrite lookupCron_patch.
      destruct (lookupCron id (crons w)); simpl; [|reflexivity].
      now destruct (Nat.eqb_spec id j). }
    split.
    { intros d0 Hd0. injection Hd0 as <-. rewrite lookupCron_patch, Hd. simpl.
      rewrite Nat.eqb_refl. eexists. split; [reflexivity|]. now repeat split. }
    split; [|exact HnD].
    exists (D ++ [{| task_id := nextTaskId (afterDispatch d w);
                     call := CallRescheduler j; scheduledTime := T;
                     state := pending |}]).
    rewrite HsD, <- app_assoc, length_app. simpl. split; [reflexivity|lia].
  - rewrite afterDispatch_crons.
    split; [reflexivity|]. split; [reflexivity|].
    split; [intros d0 Hd0; injection Hd0 as <-; exists d; now repeat split|].
    split; [|exact HnD]. exists D. split; [exact HsD|lia].
Qed.

(** X8. The dispatch decision of a tick that returns.  The tick dispatches
    at most once, and it does so exactly when the row has no dispatch handle
    or the handle's status is not pending or in progress (unknown, success,
    failed and canceled all count as finished).  The dispatch is a
    zero-delay call of the row's function with the row's arguments, made
    before the next tick is armed, and creates a pending task scheduled at
    the current time. *)
Theorem rescheduler_dispatch_decision j w w' d :
  lookupCron j (crons w) = Some d ->
  rescheduler j w = (Ok tt, w') ->
  let running :=
    match executionJobId d with
    | Some e => isOutstanding (status e w)
    | None => false
    end in
  dispatches (trace w') =
    dispatches (trace w) ++
    (if running then []
     else [ERunAfter 0 (CallFunction (functionName d) (args d))
                     (nextTaskId w)]) /\
  filter isDispatch (scheduled w') =
    filter isDispatch (scheduled w) ++
    (if running then []
     else [{| task_id := nextTaskId w;
              call := CallFunction (functionName d) (args d);
              scheduledTime := now w + 0; state := pending |}]).
Proof.
  intros Hd H. rewrite rescheduler_eq, Hd in H.
  destruct (schedulerJobId d) as [h|]; [|discriminate].
  destruct (lookupTask h (scheduled w)) as [sj|]; [|discriminate].
  destruct (pendingOrInProgress (state sj)); [|discriminate].
  destruct (nextFire d sj) as [T|]; [|discriminate].
  injection H as <-.
  assert (Hr : match executionJobId d with
               | Some e => isOutstanding (status e w)
               | None => false
               end = stillRunning d w).
  { unfold stillRunning, status. destruct (executionJobId d) as [e|]; [|reflexivity].
    now destruct (lookupTask e (scheduled w)). }
  cbv zeta. rewrite Hr.
  destruct (afterRearm_dispatches j T (afterDispatch d w)) as [-> ->].
  unfold afterDispatch. destruct (stillRunning d w); simpl.
  - now rewrite !app_nil_r.
  - now rewrite dispatches_app, filter_app.
Qed.

(** X9. A tick of a cron job asks the parser for the next date after the
    scheduled time of the tick that is running, not after the current time,
    and arms the next tick at that date; when the parser or its iterator
    throws, the tick throws and no next tick is armed. *)
Theorem rescheduler_cron_next j w d h sj c :
  wf w ->
  lookupCron j (crons w) = Some d ->
  schedulerJobId d = Some h ->
  lookupTask h (scheduled w) = Some sj ->
  pendingOrInProgress (state sj) = true ->
  schedule d = Cron c ->
  match parseExpression c (scheduledTime sj) with
  | Some i =>
    match next i with
    | Some T => fst (rescheduler j w) = Ok tt /\
                tickTime j (snd (rescheduler j w)) = Some T
    | None => fst (rescheduler j w) = Throw ParserError /\
              filter isTick (scheduled (snd (rescheduler j w)))
              = filter isTick (scheduled w)
    end
  | None => fst (rescheduler j w) = Throw ParserError /\
            filter isTick (scheduled (snd (rescheduler j w)))
            = filter isTick (scheduled w)
  end.
Proof.
  intros Hw Hd Hh Hsj Hk Hs.
  rewrite rescheduler_eq, Hd, Hh, Hsj, Hk. unfold nextFire. rewrite Hs.
  assert (Hfail : filter isTick (scheduled (afterDispatch d w))
                  = filter isTick (scheduled w)).
  { destruct (afterDispatch_scheduled d w) as (D & -> & HD & _).
    now rewrite filter_app, (filter_none _ _ HD), app_nil_r. }
  destruct (parseExpression c (scheduledTime sj)) as [i|]; [|now split].
  destruct (next i) as [T|]; [|now split].
  split; [reflexivity|].
  pose proof (wf_afterDispatch d w Hw) as (_ & Hw1 & _).
  unfold tickTime; simpl.
  rewrite lookupCron_patch, afterDispatch_crons, Hd; simpl.
  rewrite Nat.eqb_refl; simpl.
  rewrite lookupTask_app, (lookupTask_fresh _ _ Hw1 _ (le_n _)).
  unfold lookupTask; simpl. now rewrite Nat.eqb_refl.
Qed.

(** ** Lookups *)

(** X13. On a store with distinct ids, [get] and [list] agree: a row is in
    the list exactly when [get] of its id returns that row; neither call
    changes the store. *)
Theorem get_agrees_with_list w l w' d :
  wf w ->
  listCrons w = (Ok l, w') ->
  w' = w /\
  (In d l <-> get (_id d) w = (Ok (Some d), w)).
Proof.
  intros (_ & _ & Hn) H. unfold listCrons in H. injection H as <- <-.
  split; [reflexivity|]. unfold get, db_get. split.
  - intros Hin. now rewrite (lookupCron_NoDup _ Hn d Hin).
  - intros H. injection H as H. now apply lookupCron_In in H.
Qed.

(** X14. On a store with distinct ids and unique non-empty names,
    [delByName] of a non-empty name carried by a row that has its tick
    handle goes through, removes exactly that row and cancels its tick, and
    the name is free again: [getByName] finds nothing. *)
Theorem delByName_frees_name n w d sid :
  wf w -> namesUnique w ->
  truthy (Some n) = true ->
  In d (crons w) -> name d = Some n -> schedulerJobId d = Some sid ->
  exists w',
    delByName n w = (Ok tt, w') /\
    crons w' = filter (fun x => negb (Nat.eqb (_id x) (_id d))) (crons w) /\
    isOutstanding (status sid w') = false /\
    getByName n w' = (Ok None, w') /\
    get (_id d) w' = (Ok None, w').
Proof.
  intros (Hwc & Hwt & Hwn) Hu Ht Hin Hname Hs.
  assert (Hhas : hasName n d = true)
    by (unfold hasName; rewrite Hname; apply String.eqb_refl).
  assert (Hf : filter (hasName n) (crons w) = [d]).
  { specialize (Hu n Ht).
    assert (Hin' : In d (filter (hasName n) (crons w)))
      by (apply filter_In; now split).
    destruct (filter (hasName n) (crons w)) as [|d1 [|d2 l]].
    - destruct Hin'.
    - destruct Hin' as [->|[]]. reflexivity.
    - simpl in Hu. lia. }
  assert (Hone : forall x, In x (crons w) -> hasName n x = true -> x = d).
  { intros x Hx Hxn.
    assert (Hx' : In x (filter (hasName n) (crons w)))
      by (apply filter_In; now split).
    rewrite Hf in Hx'. now destruct Hx' as [->|[]]. }
  unfold delByName, bind, getByName. rewrite Hf. simpl.
  rewrite del_eq, (lookupCron_NoDup _ Hwn d Hin), Hs.
  eexists. split; [reflexivity|].
  split; [reflexivity|].
  split.
  { unfold status. simpl.
    destruct (executionJobId d) as [eid|];
      [apply status_cancel_mono|]; apply status_cancel_same. }
  split.
  - unfold getByName. simpl.
    replace (filter (hasName n)
               (filter (fun x => negb (Nat.eqb (_id x) (_id d))) (crons w)))
      with (@nil CronJob); [reflexivity|].
    symmetry. apply filter_none. apply Forall_forall.
    intros x Hx. apply filter_In in Hx. destruct Hx as [Hx Hne].
    destruct (hasName n x) eqn:E; [|reflexivity].
    rewrite (Hone x Hx E), Nat.eqb_refl in Hne. discriminate.
  - unfold get, db_get. simpl. now rewrite lookupCron_deleted.
Qed.

(** ** The store invariant *)

Lemma lookupTask_NoDup l :
  NoDup (map task_id l) ->
  forall sf, In sf l -> lookupTask (task_id sf) l = Some sf.
Proof.
  unfold lookupTask. induction l as [|x l IH]; intros Hn sf Hin; [destruct Hin|].
  simpl in *. inversion Hn as [|? ? Hx Hn']; subst.
  destruct Hin as [->|Hin].
  - now rewrite Nat.eqb_refl.
  - destruct (Nat.eqb_spec (task_id x) (task_id sf)) as [E|E].
    + exfalso. apply Hx. rewrite E. now apply in_map.
    + now apply IH.
Qed.

Lemma NoDup_task_snoc n l c T k :
  Forall (fun sf => (task_id sf < n)%nat) l ->
  NoDup (map task_id l) ->
  NoDup (map task_id (l ++ [{| task_id := n; call := c; scheduledTime := T;
                               state := k |}])).
Proof.
  intros F Hn. rewrite map_app. simpl. apply NoDup_app; auto.
  - constructor; [intros []|constructor].
  - intros i Hi [<-|[]]. apply in_map_iff in Hi. destruct Hi as (sf & E & Hsf).
    rewrite Forall_forall in F. specialize (F sf Hsf). lia.
Qed.

Lemma map_task_id_ext (f : ScheduledFunction -> ScheduledFunction) l :
  (forall sf, task_id (f sf) = task_id sf) ->
  map task_id (map f l) = map task_id l.
Proof. intros Hf. rewrite map_map. apply map_ext. exact Hf. Qed.

Lemma setStatusTask_id h k sf : task_id (setStatusTask h k sf) = task_id sf.
Proof. unfold setStatusTask. now destruct (Nat.eqb (task_id sf) h). Qed.

Lemma setStatusTask_call h k sf : call (setStatusTask h k sf) = call sf.
Proof. unfold setStatusTask. now destruct (Nat.eqb (task_id sf) h). Qed.

Lemma cancelTask_call h sf : call (cancelTask h sf) = call sf.
Proof.
  unfold cancelTask.
  now destruct (Nat.eqb (task_id sf) h && pendingOrInProgress (state sf)).
Qed.

Lemma cancelTask_outstanding h sf :
  pendingOrInProgress (state (cancelTask h sf)) = true ->
  task_id sf <> h /\ cancelTask h sf = sf.
Proof.
  unfold cancelTask. destruct (Nat.eqb_spec (task_id sf) h) as [E|E]; simpl.
  - destruct (pendingOrInProgress (state sf)) eqn:K; simpl; [discriminate|].
    congruence.
  - now split.
Qed.

Lemma wf_setStatus h k w : wf w -> wf (setStatus h k w).
Proof.
  intros (Hc & Ht & Hn). repeat split; simpl; try assumption.
  apply Forall_map. eapply Forall_impl; [|exact Ht].
  intros sf. simpl. now rewrite setStatusTask_id.
Qed.

Lemma isTick_call sf sf' : call sf' = call sf -> isTick sf' = isTick sf.
Proof. unfold isTick. now intros ->. Qed.

Lemma storeInv_emptyWorld t : storeInv (emptyWorld t).
Proof.
  split; [apply wf_emptyWorld|]. split; [constructor|].
  split; [apply namesUnique_emptyWorld|].
  split; [intros d []|]. split; [intros d []|]. intros sf [].
Qed.

Lemma storeInv_scheduleCron sched func nm a w id w' :
  storeInv w ->
  scheduleCron sched func nm a w = (Ok id, w') ->
  storeInv w'.
Proof.
  intros (Hw & Hnt & Hu & He & Hs & Ho) H.
  pose proof (wf_scheduleCron sched func nm a w Hw) as Hw'.
  pose proof (namesUnique_scheduleCron sched func nm a w Hu) as Hu'.
  rewrite H in Hw', Hu'. simpl in Hw', Hu'.
  destruct (scheduleCron_ok_inv _ _ _ _ _ _ _ H)
    as (a' & eff & T & _ & Ha & -> & -> & _).
  pose proof (afterRegister_crons func a' nm sched eff T w Hw) as Hc.
  split; [exact Hw'|].
  split; [simpl; apply NoDup_task_snoc; [apply Hw|exact Hnt]|].
  split; [exact Hu'|].
  split.
  { intros d Hd. rewrite Hc in Hd. apply in_app_or in Hd.
    destruct Hd as [Hd|[<-|[]]]; [now apply He|reflexivity]. }
  split.
  { intros d Hd. rewrite Hc in Hd. apply in_app_or in Hd.
    destruct Hd as [Hd|[<-|[]]]; [now apply Hs|discriminate]. }
  intros sf Hsf Ht Hk. simpl in Hsf. apply in_app_or in Hsf.
  destruct Hsf as [Hsf|[<-|[]]].
  - destruct (Ho sf Hsf Ht Hk) as (d & Hd & Hcall & Hp).
    exists d. rewrite Hc. split; [apply in_or_app; now left|now split].
  - eexists. rewrite Hc. split; [apply in_or_app; right; left; reflexivity|].
    now split.
Qed.

Lemma storeInv_tick w j d h w' :
  storeInv w ->
  lookupCron j (crons w) = Some d -> schedulerJobId d = Some h ->
  rescheduler j w = (Ok tt, w') ->
  storeInv (complete h w').
Proof.
  intros (Hw & Hnt & Hu & He & Hs & Ho) Hd Hh H.
  pose proof (wf_rescheduler j w Hw) as Hw'.
  pose proof (namesUnique_rescheduler j w Hu) as Hu'.
  rewrite H in Hw', Hu'. simpl in Hw', Hu'.
  rewrite rescheduler_eq, Hd, Hh in H.
  destruct (lookupTask h (scheduled w)) as [sj|]; [|discriminate].
  destruct (pendingOrInProgress (state sj)); [|discriminate].
  destruct (nextFire d sj) as [T|]; [|discriminate].
  injection H as <-.
  destruct (afterDispatch_scheduled d w) as (D & HsD & HD & Hle & _).
  pose proof (wf_afterDispatch d w Hw) as (_ & Hw1 & _).
  assert (Hnt1 : NoDup (map task_id (scheduled (afterDispatch d w)))).
  { unfold afterDispatch. destruct (stillRunning d w); [exact Hnt|].
    simpl. apply NoDup_task_snoc; [apply Hw|exact Hnt]. }
  split; [now apply wf_complete|].
  split.
  { simpl. rewrite (map_task_id_ext _ _ (completeTask_id h)).
    now apply NoDup_task_snoc. }
  split; [exact Hu'|].
  split.
  { intros d0 Hd0. simpl in Hd0. rewrite afterDispatch_crons in Hd0.
    apply in_map_iff in Hd0. destruct Hd0 as (x & <- & Hx).
    destruct (patch_keeps_fields j (nextTaskId (afterDispatch d w)) x)
      as (_ & _ & _ & _ & _ & E). simpl in E. rewrite E. now apply He. }
  split.
  { intros d0 Hd0. simpl in Hd0. rewrite afterDispatch_crons in Hd0.
    apply in_map_iff in Hd0. destruct Hd0 as (x & <- & Hx).
    destruct (Nat.eqb (_id x) j); [discriminate|now apply Hs]. }
  intros sf' Hsf' Ht Hk. simpl in Hsf'. apply in_map_iff in Hsf'.
  destruct Hsf' as (s0 & <- & Hs0).
  destruct (completeTask_outstanding _ _ Hk) as [Hne Heq]. rewrite Heq in *.
  destruct Hw as (Hwc & Hwt & Hwn).
  simpl. rewrite afterDispatch_crons.
  apply in_app_or in Hs0. destruct Hs0 as [Hs0|[<-|[]]].
  - rewrite HsD in Hs0. apply in_app_or in Hs0. destruct Hs0 as [Hs0|Hs0].
    + destruct (Ho s0 Hs0 Ht Hk) as (d0 & Hd0 & Hcall & Hp).
      assert (Hj : _id d0 <> j).
      { intros E. pose proof (lookupCron_NoDup _ Hwn d0 Hd0) as L.
        rewrite E, Hd in L. injection L as <-. congruence. }
      exists d0. split; [|now split].
      apply in_map_iff. exists d0. split; [|exact Hd0].
      now destruct (Nat.eqb_spec (_id d0) j).
    + rewrite Forall_forall in HD. rewrite (HD s0 Hs0) in Ht. discriminate.
  - exists (setSchedulerJobId (nextTaskId (afterDispatch d w)) d).
    split; [|split; [simpl; now rewrite (lookupCron_id _ _ _ Hd)|reflexivity]].
    apply in_map_iff. exists d. split; [|now apply (lookupCron_In j)].
    now rewrite (lookupCron_id _ _ _ Hd), Nat.eqb_refl.
Qed.

Lemma storeInv_setStatus h k w :
  storeInv w ->
  (k = failed \/
   forall sf, In sf (scheduled w) -> task_id sf = h -> isTick sf = false) ->
  storeInv (setStatus h k w).
Proof.
  intros (Hw & Hnt & Hu & He & Hs & Ho) Hcase.
  split; [now apply wf_setStatus|].
  split; [simpl; now rewrite (map_task_id_ext _ _ (setStatusTask_id h k))|].
  split; [exact Hu|]. split; [exact He|]. split; [exact Hs|].
  intros sf' Hsf' Ht Hk. simpl in Hsf'. apply in_map_iff in Hsf'.
  destruct Hsf' as (s0 & <- & Hs0).
  rewrite (isTick_call _ _ (setStatusTask_call h k s0)) in Ht.
  rewrite setStatusTask_id, setStatusTask_call.
  unfold setStatusTask in Hk.
  destruct (Nat.eqb_spec (task_id s0) h) as [E|E]; simpl in Hk.
  - destruct Hcase as [->|Hc]; [discriminate|].
    rewrite (Hc s0 Hs0 E) in Ht. discriminate.
  - exact (Ho s0 Hs0 Ht Hk).
Qed.

Lemma storeInv_del j w w' :
  storeInv w -> del j w = (Ok tt, w') -> storeInv w'.
Proof.
  intros (Hw & Hnt & Hu & He & Hs & Ho) H.
  pose proof (wf_del j w Hw) as Hw'.
  pose proof (namesUnique_del j w Hu) as Hu'.
  rewrite H in Hw', Hu'. simpl in Hw', Hu'.
  rewrite del_eq in H.
  destruct (lookupCron j (crons w)) as [d|] eqn:Hd; [|discriminate].
  destruct (schedulerJobId d) as [sid|] eqn:Hsid; [|discriminate].
  rewrite (He d (lookupCron_In _ _ _ Hd)) in H. injection H as <-.
  split; [exact Hw'|].
  split; [simpl; now rewrite (map_task_id_ext _ _ (cancelTask_id sid))|].
  split; [exact Hu'|].
  split; [intros d0 Hd0; simpl in Hd0; apply filter_In in Hd0; now apply He|].
  split; [intros d0 Hd0; simpl in Hd0; apply filter_In in Hd0; now apply Hs|].
  intros sf' Hsf' Ht Hk. simpl in Hsf'. apply in_map_iff in Hsf'.
  destruct Hsf' as (s0 & <- & Hs0).
  destruct (cancelTask_outstanding _ _ Hk) as [Hne Heq]. rewrite Heq in *.
  destruct (Ho s0 Hs0 Ht Hk) as (d0 & Hd0 & Hcall & Hp).
  destruct Hw as (Hwc & Hwt & Hwn).
  assert (Hj : _id d0 <> j).
  { intros E. pose proof (lookupCron_NoDup _ Hwn d0 Hd0) as L.
    rewrite E, Hd in L. injection L as <-. congruence. }
  exists d0. split; [|now split].
  simpl. apply filter_In. split; [exact Hd0|].
  now destruct (Nat.eqb_spec (_id d0) j).
Qed.

Lemma reachable_inv w : reachable w -> storeInv w.
Proof.
  induction 1 as [t
                 | w sched func nm a id w' _ IH H
                 | w j d h w' _ IH Hd Hh H
                 | w j d h e w' _ IH Hd Hh H
                 | w j w' _ IH H
                 | w n w' _ IH H
                 | w t _ IH
                 | w h sf k _ IH Hl Hdisp].
  - apply storeInv_emptyWorld.
  - exact (storeInv_scheduleCron _ _ _ _ _ _ _ IH H).
  - exact (storeInv_tick _ _ _ _ _ IH Hd Hh H).
  - apply storeInv_setStatus; [exact IH|now left].
  - exact (storeInv_del _ _ _ IH H).
  - unfold delByName, bind in H.
    destruct (getByName n w) as [[[cronJob|]|] w0] eqn:G; try discriminate.
    assert (w0 = w).
    { unfold getByName, unique in G.
      destruct (filter (hasName n) (crons w)) as [|d1 [|d2 l]];
        unfold ret, throw in G; congruence. }
    subst w0. exact (storeInv_del _ _ _ IH H).
  - exact IH.
  - apply storeInv_setStatus; [exact IH|right].
    intros s0 Hs0 E.
    destruct IH as (_ & Hnt & _).
    pose proof (lookupTask_NoDup _ Hnt s0 Hs0) as L. rewrite E, Hl in L.
    injection L as <-. unfold isDispatch in Hdisp. unfold isTick.
    now destruct (call sf).
Qed.

(** X11. Every store the library can produce, from the empty store through
    registrations, ticks (completed or failed), deletions by id or by name,
    the clock and the progress of dispatched functions, satisfies the store
    invariant: ids are fresh and distinct, non-empty names are unique, every
    row has its tick handle and no dispatch handle, and every tick task
    still under way is the tick some existing row points to. *)
Theorem reachable_store_invariant w : reachable w -> storeInv w.
Proof. exact (reachable_inv w). Qed.

(** X12. On every store the library can produce, the overlap check never
    suppresses anything and "not scheduled" is never thrown: a tick that
    returns has dispatched the row's function with the row's arguments
    exactly once, and neither [del] nor a tick fails for want of a tick
    handle. *)
Theorem reachable_every_tick_dispatches w :
  reachable w ->
  (forall j, fst (del j w) <> Throw (NotScheduled j) /\
             fst (rescheduler j w) <> Throw (NotScheduled j)) /\
  (forall j w', rescheduler j w = (Ok tt, w') ->
     exists d, lookupCron j (crons w) = Some d /\
               dispatches (trace w') =
               dispatches (trace w) ++
               [ERunAfter 0 (CallFunction (functionName d) (args d))
                          (nextTaskId w)]).
Proof.
  intros Hr. destruct (reachable_inv w Hr) as (_ & _ & _ & He & Hs & _).
  split.
  - intros j. rewrite del_eq, rescheduler_eq.
    destruct (lookupCron j (crons w)) as [d|] eqn:Hd; [|split; discriminate].
    specialize (Hs d (lookupCron_In _ _ _ Hd)).
    destruct (schedulerJobId d) as [h|]; [|contradiction].
    split; [discriminate|].
    destruct (lookupTask h (scheduled w)) as [sj|]; [|discriminate].
    destruct (pendingOrInProgress (state sj)); [|discriminate].
    now destruct (nextFire d sj).
  - intros j w' H. rewrite rescheduler_eq in H.
    destruct (lookupCron j (crons w)) as [d|] eqn:Hd; [|discriminate].
    destruct (schedulerJobId d) as [h|]; [|discriminate].
    destruct (lookupTask h (scheduled w)) as [sj|]; [|discriminate].
    destruct (pendingOrInProgress (state sj)); [|discriminate].
    destruct (nextFire d sj) as [T|]; [|discriminate].
    injection H as <-. exists d. split; [reflexivity|].
    destruct (afterRearm_dispatches j T (afterDispatch d w)) as [-> _].
    unfold afterDispatch, stillRunning.
    rewrite (He d (lookupCron_In _ _ _ Hd)). simpl.
    now rewrite dispatches_app.
Qed.

(** X15. On every store the library can produce, a job never has two ticks
    under way: two tick tasks addressed to the same job that are both
    pending or in progress are one and the same task. *)
Theorem reachable_one_tick_per_job w j sf1 sf2 :
  reachable w ->
  In sf1 (scheduled w) -> In sf2 (scheduled w) ->
  isTickFor j sf1 = true -> isTickFor j sf2 = true ->
  pendingOrInProgress (state sf1) = true ->
  pendingOrInProgress (state sf2) = true ->
  sf1 = sf2.
Proof.
  intros Hr H1 H2 T1 T2 K1 K2.
  destruct (reachable_inv w Hr) as ((_ & _ & Hn) & Hnt & _ & _ & _ & Ho).
  destruct (Ho sf1 H1 (isTickFor_isTick _ _ T1) K1) as (d1 & D1 & C1 & P1).
  destruct (Ho sf2 H2 (isTickFor_isTick _ _ T2) K2) as (d2 & D2 & C2 & P2).
  unfold isTickFor in T1, T2. rewrite C1 in T1. rewrite C2 in T2.
  apply Nat.eqb_eq in T1, T2.
  pose proof (lookupCron_NoDup _ Hn d1 D1) as L1.
  pose proof (lookupCron_NoDup _ Hn d2 D2) as L2.
  rewrite T1 in L1. rewrite T2, L1 in L2. injection L2 as <-.
  rewrite P1 in P2. injection P2 as E.
  pose proof (lookupTask_NoDup _ Hnt sf1 H1) as M1.
  pose proof (lookupTask_NoDup _ Hnt sf2 H2) as M2.
  rewrite E, M2 in M1. now injection M1.
Qed.

(** ** The verification code email *)

Lemma substring_split k s :
  (k <= String.length s)%nat ->
  append (substring 0 k s) (substring k (String.length s - k) s) = s.
Proof.
  revert k. induction s as [|c s IH]; intros k Hk; simpl in *.
  - now destruct k.
  - destruct k as [|k]; simpl.
    + f_equal. specialize (IH 0%nat (Nat.le_0_l _)). simpl in IH.
      rewrite Nat.sub_0_r in IH.
      destruct (String.length s) eqn:E; [now destruct s|].
      destruct s; [discriminate|]. simpl in *. exact IH.
    + f_equal. apply IH. lia.
Qed.

Lemma length_substring k m s :
  (k + m <= String.length s)%nat ->
  String.length (substring k m s) = m.
Proof.
  revert k m. induction s as [|c s IH]; intros k m H; simpl in *.
  - assert (k = 0%nat) by lia. assert (m = 0%nat) by lia. now subst.
  - destruct k as [|k].
    + destruct m as [|m]; [reflexivity|]. simpl. f_equal.
      apply (IH 0%nat). lia.
    + apply IH. lia.
Qed.

Lemma codeSpans_eq code :
  codeSpans code =
  (substring 0 (Nat.min 3 (String.length code)) code,
   substring (Nat.min 3 (String.length code))
             (String.length code - Nat.min 3 (String.length code)) code).
Proof.
  unfold codeSpans, slice, sliceIndex.
  change (0 <? 0)%Z with false. change (3 <? 0)%Z with false. cbv iota.
  f_equal; f_equal; lia.
Qed.

(** X16. The two spans in which the email shows the code, [code.slice(0, 3)]
    and [code.slice(3)], put together are the code, whatever its length:
    nothing is dropped or repeated.  The first span holds the first three
    characters (all of them when there are fewer), and a six-character code
    is shown as three and three. *)
Theorem codeSpans_split code :
  append (fst (codeSpans code)) (snd (codeSpans code)) = code /\
  String.length (fst (codeSpans code)) = Nat.min 3 (String.length code) /\
  String.length (snd (codeSpans code)) = (String.length code - 3)%nat.
Proof.
  rewrite codeSpans_eq. cbn [fst snd].
  split; [apply substring_split; lia|].
  split; rewrite length_substring; lia.
Qed.

(** X17. The number of minutes the email announces is the number of whole
    minutes left: that many minutes from now the code has not yet expired,
    one minute more and it has.  It is negative exactly when the code has
    already expired. *)
Theorem minutesValid_bounds expires dateNow :
  let m := minutesValid expires dateNow in
  dateNow + m * 60000 <= expires < dateNow + (m + 1) * 60000 /\
  (m < 0 <-> expires < dateNow).
Proof.
  unfold minutesValid. change (60 * 1000) with 60000.
  pose proof (Z.div_mod (expires - dateNow) 60000 ltac:(lia)) as E.
  pose proof (Z.mod_pos_bound (expires - dateNow) 60000 ltac:(lia)) as B.
  cbv zeta. split; [lia|]. split; intros H.
  - lia.
  - apply Z.div_lt_upper_bound; lia.
Qed.

End Properties.

(** * The cadence of an interval job, over doubles *)

Module DoublesFacts.

Import Doubles.
Local Open Scope float_scope.
Local Open Scope dcron_scope.

Section Facts.

Variable parseArgs : option Args -> option Args.
Variable parseExpression : string -> number -> option CronExpression.

Local Abbreviation scheduleCron := (scheduleCron parseArgs parseExpression).
Local Abbreviation rescheduler := (rescheduler parseExpression).
Local Abbreviation armed := (armed parseArgs parseExpression).

Lemma f64_lookupCron_app id l1 l2 :
  lookupCron id (l1 ++ l2) =
  match lookupCron id l1 with
  | Some d => Some d
  | None => lookupCron id l2
  end.
Proof.
  unfold lookupCron. induction l1 as [|d l1 IH]; simpl; [reflexivity|].
  destruct (Nat.eqb (_id d) id); [reflexivity|exact IH].
Qed.

Lemma f64_lookupTask_app h l1 l2 :
  lookupTask h (l1 ++ l2) =
  match lookupTask h l1 with
  | Some sf => Some sf
  | None => lookupTask h l2
  end.
Proof.
  unfold lookupTask. induction l1 as [|sf l1 IH]; simpl; [reflexivity|].
  destruct (Nat.eqb (task_id sf) h); [reflexivity|exact IH].
Qed.

Lemma f64_lookupTask_fresh n l :
  Forall (fun sf => (task_id sf < n)%nat) l ->
  forall h, (n <= h)%nat -> lookupTask h l = None.
Proof.
  intros F h Hh. unfold lookupTask.
  induction F as [|sf l Hsf F IH]; simpl; [reflexivity|].
  destruct (Nat.eqb_spec (task_id sf) h); [lia|exact IH].
Qed.

Lemma f64_lookupCron_fresh n l :
  Forall (fun d => (_id d < n)%nat) l ->
  forall id, (n <= id)%nat -> lookupCron id l = None.
Proof.
  intros F id Hid. unfold lookupCron.
  induction F as [|d l Hd F IH]; simpl; [reflexivity|].
  destruct (Nat.eqb_spec (_id d) id); [lia|exact IH].
Qed.

Lemma f64_lookupCron_patch id j h l :
  lookupCron id (map (fun d => if Nat.eqb (_id d) j
                               then setSchedulerJobId h d else d) l) =
  option_map (fun d => if Nat.eqb id j then setSchedulerJobId h d else d)
             (lookupCron id l).
Proof.
  unfold lookupCron. induction l as [|d l IH]; simpl; [reflexivity|].
  destruct (Nat.eqb_spec (_id d) j) as [E|E]; simpl.
  - destruct (Nat.eqb_spec (_id d) id) as [E'|E']; simpl.
    + subst. now rewrite Nat.eqb_refl.
    + exact IH.
  - destruct (Nat.eqb_spec (_id d) id) as [E'|E']; simpl.
    + subst. destruct (Nat.eqb_spec (_id d) j); [contradiction|reflexivity].
    + exact IH.
Qed.

Lemma f64_Forall_id_patch (P : nat -> Prop) j h l :
  Forall (fun d => P (_id d)) l ->
  Forall (fun d => P (_id d))
         (map (fun d => if Nat.eqb (_id d) j
                        then setSchedulerJobId h d else d) l).
Proof.
  intros F. apply Forall_map. eapply Forall_impl; [|exact F].
  intros d Hd. simpl. now destruct (Nat.eqb (_id d) j).
Qed.

Lemma f64_afterDispatch_crons d w : crons (afterDispatch d w) = crons w.
Proof. unfold afterDispatch. now destruct (stillRunning d w). Qed.

Lemma f64_fresh_afterDispatch d w : fresh w -> fresh (afterDispatch d w).
Proof.
  intros (Hc & Ht). unfold afterDispatch.
  destruct (stillRunning d w); [now split|].
  split; simpl; [assumption|].
  apply Forall_app. split.
  - eapply Forall_impl; [|exact Ht]. simpl. intros; lia.
  - constructor; [simpl; lia|constructor].
Qed.

Lemma f64_fresh_afterRearm j T w : fresh w -> fresh (afterRearm j T w).
Proof.
  intros (Hc & Ht). split; simpl.
  - now apply (f64_Forall_id_patch (fun i => (i < nextCronId w)%nat)).
  - apply Forall_app. split.
    + eapply Forall_impl; [|exact Ht]. simpl. intros; lia.
    + constructor; [simpl; lia|constructor].
Qed.

Lemma f64_fresh_afterRegister f a nm s eff T w :
  fresh w -> fresh (afterRegister f a nm s eff T w).
Proof.
  intros (Hc & Ht). split; simpl.
  - apply (f64_Forall_id_patch (fun i => (i < S (nextCronId w))%nat)).
    apply Forall_app. split.
    + eapply Forall_impl; [|exact Hc]. simpl. intros; lia.
    + constructor; [simpl; lia|constructor].
  - apply Forall_app. split.
    + eapply Forall_impl; [|exact Ht]. simpl. intros; lia.
    + constructor; [simpl; lia|constructor].
Qed.

(** A tick of an interval job that returns: the closed form of the store it
    leaves, with the next time the double sum of the running tick's
    scheduled time and the period. *)
Lemma f64_rescheduler_interval_ok j w w' d ms :
  lookupCron j (crons w) = Some d ->
  schedule d = Interval ms ->
  rescheduler j w = (Ok tt, w') ->
  exists h sj,
    schedulerJobId d = Some h /\
    lookupTask h (scheduled w) = Some sj /\
    pendingOrInProgress (state sj) = true /\
    w' = afterRearm j (scheduledTime sj + ms) (afterDispatch d w).
Proof.
  intros Hd Hs H.
  assert (Hform :
    rescheduler j w =
    match schedulerJobId d with
    | None => (Throw (NotScheduled j), w)
    | Some h =>
      match lookupTask h (scheduled w) with
      | None => (Throw (ScheduledTaskNotFound h), w)
      | Some sj =>
        if pendingOrInProgress (state sj)
        then (Ok tt, afterRearm j (scheduledTime sj + ms) (afterDispatch d w))
        else (Throw (IntegrityError (task_id sj) (state sj)), w)
      end
    end).
  { unfold rescheduler, bind, db_get, db_system_get, throw, ret.
    rewrite Hd.
    destruct (schedulerJobId d) as [h|]; [|reflexivity].
    destruct (lookupTask h (scheduled w)) as [sj|]; [|reflexivity].
    destruct (pendingOrInProgress (state sj)); simpl; [|reflexivity].
    rewrite Hs.
    assert (Hpatch : forall T w1, crons w1 = crons w ->
              db_patch j (nextTaskId w1)
                (snd (scheduler_runAt T (CallRescheduler j) w1))
              = (Ok tt, afterRearm j T w1)).
    { intros T w1 Hc.
      unfold db_patch, scheduler_runAt, schedule_task, afterRearm; simpl.
      rewrite Hc, Hd, <- app_assoc. reflexivity. }
    unfold afterDispatch, stillRunning.
    destruct (executionJobId d) as [e|];
      [destruct (lookupTask e (scheduled w)) as [ej|];
       [destruct (pendingOrInProgress (state ej))|]|];
      match goal with
      | |- _ = (Ok tt, afterRearm j ?T ?w1) => exact (Hpatch T w1 eq_refl)
      end. }
  rewrite Hform in H.
  destruct (schedulerJobId d) as [h|]; [|discriminate].
  destruct (lookupTask h (scheduled w)) as [sj|] eqn:Hsj; [|discriminate].
  destruct (pendingOrInProgress (state sj)) eqn:Hk; [|discriminate].
  injection H as <-. exists h, sj.
  split; [reflexivity|]. split; [exact Hsj|]. split; [exact Hk|reflexivity].
Qed.

(** An interval registration that returns: the closed form of the store it
    leaves, with the first tick at the double sum of the clock and the
    period. *)
Lemma f64_scheduleCron_interval_ok ms func nm a w id w' :
  scheduleCron (Interval ms) func nm a w = (Ok id, w') ->
  exists a',
    id = nextCronId w /\
    w' = afterRegister func a' nm (Interval ms)
           (ERunAfter ms (CallRescheduler (nextCronId w)) (nextTaskId w))
           (now w + ms) w.
Proof.
  assert (Hrest :
    (match Interval ms with
     | Interval ms => if ms <? 1000 then throw InvalidInterval else ret tt
     | Cron _ => ret tt
     end ;;;
     match Interval ms with
     | Cron cronspec =>
       fun w => match parseExpression cronspec (now w) with
                | None => throw (InvalidCronSpec cronspec) w
                | Some _ => ret tt w
                end
     | Interval _ => ret tt
     end ;;;
     match parseArgs a with
     | None => throw ArgsError
     | Some a' =>
       let fname := getFunctionName func in
       match Interval ms with
       | Interval ms =>
         cronJobId <- db_insert fname a' nm (Interval ms) ;;
         sid <- scheduler_runAfter ms (CallRescheduler cronJobId) ;;
         db_patch cronJobId sid ;;;
         ret cronJobId
       | Cron cronspec =>
         cronJobId <- db_insert fname a' nm (Cron cronspec) ;;
         d <- (fun w => nextScheduledDate parseExpression (now w) cronspec w) ;;
         sid <- scheduler_runAt d (CallRescheduler cronJobId) ;;
         db_patch cronJobId sid ;;;
         ret cronJobId
       end
     end) w = (Ok id, w') ->
    exists a',
      id = nextCronId w /\
      w' = afterRegister func a' nm (Interval ms)
             (ERunAfter ms (CallRescheduler (nextCronId w)) (nextTaskId w))
             (now w + ms) w).
  { unfold bind, throw, ret, getFunctionName.
    destruct (ms <? 1000); [discriminate|].
    destruct (parseArgs a) as [a'|]; [|discriminate].
    unfold db_insert, scheduler_runAfter, schedule_task, db_patch; simpl.
    rewrite f64_lookupCron_app.
    destruct (lookupCron (nextCronId w) (crons w)) as [d|];
      [|unfold lookupCron; simpl; rewrite Nat.eqb_refl];
      intros H; injection H as <- <-; exists a'; split; try reflexivity;
      unfold afterRegister, newRow; now rewrite <- !app_assoc. }
  unfold scheduleCron. unfold bind at 1.
  destruct nm as [n|].
  - destruct (truthy (Some n)).
    + unfold bind at 1. unfold getByName, unique.
      destruct (filter (hasName n) (crons w)) as [|d1 [|d2 l]];
        unfold ret, throw; simpl; try discriminate.
      exact Hrest.
    + unfold ret at 1. exact Hrest.
  - unfold ret at 1. exact Hrest.
Qed.

Lemma f64_tickTime_afterRegister f a nm s eff T w :
  fresh w ->
  tickTime (nextCronId w) (afterRegister f a nm s eff T w) = Some T /\
  option_map schedule
    (lookupCron (nextCronId w) (crons (afterRegister f a nm s eff T w)))
  = Some s.
Proof.
  intros (Hc & Ht). unfold tickTime; simpl.
  rewrite f64_lookupCron_patch, f64_lookupCron_app.
  rewrite (f64_lookupCron_fresh _ _ Hc _ (le_n _)).
  unfold lookupCron at 1; simpl. rewrite !Nat.eqb_refl; simpl.
  rewrite f64_lookupTask_app, (f64_lookupTask_fresh _ _ Ht _ (le_n _)).
  unfold lookupTask; simpl. now rewrite Nat.eqb_refl.
Qed.

(** One tick of an interval job: the new tick is scheduled at the scheduled
    time of the tick that is running plus the period, in double arithmetic;
    the clock plays no part. *)
Lemma f64_tickTime_rescheduler j w w' d ms :
  fresh w ->
  lookupCron j (crons w) = Some d ->
  schedule d = Interval ms ->
  rescheduler j w = (Ok tt, w') ->
  tickTime j w' = option_map (fun T => T + ms) (tickTime j w) /\
  option_map schedule (lookupCron j (crons w')) = Some (Interval ms) /\
  fresh w'.
Proof.
  intros Hw Hd Hs Hr.
  destruct (f64_rescheduler_interval_ok _ _ _ _ _ Hd Hs Hr)
    as (h & sj & Hh & Hsj & _ & ->).
  pose proof (f64_fresh_afterDispatch d w Hw) as Hw1.
  split; [|split; [|now apply f64_fresh_afterRearm]].
  - unfold tickTime at 2. rewrite Hd, Hh, Hsj. simpl.
    destruct Hw1 as (_ & Hw1).
    unfold tickTime; simpl.
    rewrite f64_lookupCron_patch, f64_afterDispatch_crons, Hd; simpl.
    rewrite Nat.eqb_refl; simpl.
    rewrite f64_lookupTask_app, (f64_lookupTask_fresh _ _ Hw1 _ (le_n _)).
    unfold lookupTask; simpl. now rewrite Nat.eqb_refl.
  - simpl. rewrite f64_lookupCron_patch, f64_afterDispatch_crons, Hd; simpl.
    rewrite Nat.eqb_refl. simpl. now rewrite Hs.
Qed.

Lemma f64_armed_invariant j M0 t0 k w :
  armed j M0 t0 k w ->
  fresh w /\ (1 <= k)%nat /\
  tickTime j w = Some (kthTime t0 M0 k) /\
  option_map schedule (lookupCron j (crons w)) = Some (Interval M0).
Proof.
  induction 1 as [w w' func nm a Hw Hnow Hreg
                 | k w w' Ha IH [Hfc Hft] Hw'
                 | k w w' Ha IH Hr].
  - destruct (f64_scheduleCron_interval_ok _ _ _ _ _ _ _ Hreg)
      as (a' & -> & ->).
    destruct (f64_tickTime_afterRegister func a' nm (Interval M0)
                (ERunAfter M0 (CallRescheduler (nextCronId w)) (nextTaskId w))
                (now w + M0) w Hw) as [HT HS].
    split; [now apply f64_fresh_afterRegister|]. split; [lia|].
    split; [|exact HS]. rewrite HT, Hnow. reflexivity.
  - destruct IH as (Hw & Hk & HT & HS).
    split; [exact Hw'|]. split; [exact Hk|]. split.
    + unfold tickTime in *. rewrite Hfc.
      destruct (lookupCron j (crons w)) as [d|]; [|discriminate].
      destruct (schedulerJobId d) as [h|]; [|discriminate].
      destruct (lookupTask h (scheduled w)) as [sf|] eqn:Hl; [|discriminate].
      destruct (Hft h sf Hl) as (sf' & -> & E). simpl in *. congruence.
    + now rewrite Hfc.
  - destruct IH as (Hw & Hk & HT & HS).
    destruct (lookupCron j (crons w)) as [d|] eqn:Hd; [|discriminate].
    simpl in HS. injection HS as HS.
    destruct (f64_tickTime_rescheduler j w w' d M0 Hw Hd HS Hr)
      as (HT' & HS' & Hw').
    split; [exact Hw'|]. split; [lia|]. split; [|exact HS'].
    rewrite HT', HT. reflexivity.
Qed.

(** When no addition rounds, the sum is the exact one. *)
Lemma f64_kthTime_exact t0 M0 k x0 m :
  exactValue t0 = Some x0 ->
  exactValue M0 = Some m ->
  (forall i, (i < k)%nat ->
             exactValue (kthTime t0 M0 (S i)) =
             option_map (fun x => (x + m)%Z) (exactValue (kthTime t0 M0 i))) ->
  exactValue (kthTime t0 M0 k) = Some (x0 + Z.of_nat k * m)%Z.
Proof.
  intros H0 Hm. induction k as [|k IH]; intros Hstep.
  - simpl. rewrite H0. f_equal. lia.
  - rewrite (Hstep k (Nat.lt_succ_diag_r k)), IH.
    + cbn [option_map]. f_equal. lia.
    + intros i Hi. apply Hstep. lia.
Qed.

(** C3, as the code has it.  For an interval job of period [M] registered at
    time [t0], registration arms the first tick at [t0 + M] and each tick
    arms the next at its own scheduled time plus [M], not at the time it
    runs, whatever happens in between; the additions are those of doubles.
    So for every [k >= 1] the [k]-th tick is scheduled at the [k]-fold
    double sum [t0 + M + ... + M], and that is exactly [t0 + k * M]
    whenever none of the [k] additions rounds. *)
Theorem interval_tick_time j M0 t0 k w :
  armed j M0 t0 k w ->
  (1 <= k)%nat /\
  tickTime j w = Some (kthTime t0 M0 k) /\
  (forall w', rescheduler j w = (Ok tt, w') ->
              tickTime j w' = option_map (fun T => T + M0) (tickTime j w)) /\
  (forall x0 m,
     exactValue t0 = Some x0 ->
     exactValue M0 = Some m ->
     (forall i, (i < k)%nat ->
                exactValue (kthTime t0 M0 (S i)) =
                option_map (fun x => (x + m)%Z)
                           (exactValue (kthTime t0 M0 i))) ->
     exists T, tickTime j w = Some T /\
               exactValue T = Some (x0 + Z.of_nat k * m)%Z).
Proof.
  intros Ha.
  destruct (f64_armed_invariant _ _ _ _ _ Ha) as (Hw & Hk & HT & HS).
  split; [exact Hk|]. split; [exact HT|]. split.
  - intros w' Hr.
    destruct (lookupCron j (crons w)) as [d|] eqn:Hd; [|discriminate].
    simpl in HS. injection HS as HS.
    now destruct (f64_tickTime_rescheduler j w w' d M0 Hw Hd HS Hr).
  - intros x0 m H0 Hm Hstep. exists (kthTime t0 M0 k).
    split; [exact HT|]. now apply f64_kthTime_exact.
Qed.

End Facts.

Lemma f64_fresh_emptyWorld t : fresh (emptyWorld t).
Proof. split; constructor. Defined.

Ltac f64_run_ticks :=
  repeat (match goal with
          | |- Doubles.armed _ _ _ _ _ (S (S ?k)) (?f (S ?n)) =>
            apply (armed_tick _ _ _ _ _ (S k) (f n) (f (S n)));
            [|vm_compute; reflexivity]
          end).

Lemma f64_armed_tenth :
  armed sampleParseArgs noCron 0%nat ms1000_1 0 7 (tenth 6).
Proof.
  f64_run_ticks.
  apply (armed_register _ _ _ _ _ (emptyWorld 0) tenth1 "job" None None);
    [apply f64_fresh_emptyWorld|reflexivity|vm_compute; reflexivity].
Defined.

Lemma f64_armed_whole :
  armed sampleParseArgs noCron 0%nat 1000 0 3 (whole 2).
Proof.
  f64_run_ticks.
  apply (armed_register _ _ _ _ _ (emptyWorld 0) whole1 "job" None None);
    [apply f64_fresh_emptyWorld|reflexivity|vm_compute; reflexivity].
Defined.

(** C3 as worded fails over doubles.  An interval job of period 1000.1
    (the double nearest to it, accepted by the guard) registered at time 0
    has its seventh tick scheduled at 7000.700000000001: neither the double
    [0 + 7 * 1000.1] nor, as an exact value, [t0 + 7 * M]. *)
Lemma interval_tick_time_drifts :
  armed sampleParseArgs noCron 0%nat ms1000_1 0 7 (tenth 6) /\
  exists T m,
    tickTime 0%nat (tenth 6) = Some T /\
    exactValue 0 = Some 0%Z /\
    exactValue ms1000_1 = Some m /\
    exactValue T <> Some (0 + 7 * m)%Z /\
    (T =? 0 + 7 * ms1000_1) = false.
Proof.
  split; [exact f64_armed_tenth|].
  eexists _, _.
  split; [vm_compute; reflexivity|].
  split; [vm_compute; reflexivity|].
  split; [vm_compute; reflexivity|].
  split; [vm_compute; discriminate|vm_compute; reflexivity].
Qed.

Lemma interval_tick_time_witness :
  exists T m,
    exactValue 1000 = Some m /\
    tickTime 0%nat (whole 2) = Some T /\
    exactValue T = Some (0 + Z.of_nat 3 * m)%Z /\
    T = 3000.
Proof.
  destruct (interval_tick_time sampleParseArgs noCron 0%nat 1000 0 3
              (whole 2) f64_armed_whole) as (_ & _ & _ & H).
  destruct (H 0%Z (1000 * 2 ^ 1074)%Z) as (T & HT & HE).
  - vm_compute; reflexivity.
  - vm_compute; reflexivity.
  - intros i Hi. destruct i as [|[|[|i]]]; [vm_compute; reflexivity ..|lia].
  - exists T, (1000 * 2 ^ 1074)%Z.
    split; [vm_compute; reflexivity|]. split; [exact HT|].
    split; [exact HE|].
    vm_compute in HT. now injection HT.
Defined.

End DoublesFacts.

(** * Concrete runs *)

(** C1. The dispatch handle is dropped.  The first tick of the sample job
    dispatches the target function under handle 1, which is pending
    afterwards, yet the row's [executionJobId] is still absent; so the next
    tick, run while that dispatch is still pending, dispatches again. *)
Theorem rescheduler_drops_dispatch_handle :
  rescheduler sampleParser 0%nat (atTime 1000 world1) = (Ok tt, world2) /\
  trace world2 =
    trace world1 ++
    [ERunAfter 0 (CallFunction "job" sampleArgs) 1%nat;
     ERunAt 2000 (CallRescheduler 0%nat) 2%nat; EPatch 0%nat 2%nat] /\
  status 1%nat world2 = Some pending /\
  option_map executionJobId (lookupCron 0%nat (crons world2)) = Some None /\
  option_map schedulerJobId (lookupCron 0%nat (crons world2))
    = Some (Some 2%nat) /\
  let w3 := atTime 2000 (complete 0%nat world2) in
  status 1%nat w3 = Some pending /\
  dispatches (trace (run (rescheduler sampleParser 0%nat) w3)) =
    [ERunAfter 0 (CallFunction "job" sampleArgs) 1%nat;
     ERunAfter 0 (CallFunction "job" sampleArgs) 3%nat].
Proof. repeat split. Qed.

(** The first end-to-end scenario: registered at 0 with period 1000, the
    job's first tick is scheduled at 1000; run at 1000 it dispatches the
    target with the job's arguments and arms the next tick at 2000. *)
Example scenario_interval :
  tickTime 0%nat world1 = Some 1000 /\
  tickTime 0%nat world2 = Some 2000 /\
  dispatches (trace world2) = [ERunAfter 0 (CallFunction "job" sampleArgs) 1%nat].
Proof. repeat split. Qed.

(** The second scenario: a daily job registered on 2024-01-01 at noon UTC
    first fires at the following midnight and then one day later. *)
Example scenario_cron :
  let w0 := emptyWorld 1704110400000 in
  let w1 := run (cron sampleParseArgs sampleParser "0 0 * * *" "job" None) w0 in
  let w2 := run (rescheduler sampleParser 0%nat) (atTime 1704153600001 w1) in
  tickTime 0%nat w1 = Some 1704153600000 /\
  tickTime 0%nat w2 = Some 1704240000000.
Proof. vm_compute. split; reflexivity. Qed.

Lemma wf_world1 : wf (atTime 1000 world1).
Proof.
  repeat split; vm_compute; repeat constructor; intros [].
Defined.

Lemma rescheduler_overlap_suppression_witness :
  let w' := run (rescheduler sampleParser 0%nat) world2overlap in
  dispatches (trace w') = dispatches (trace world2overlap) /\
  filter isDispatch (scheduled w') = filter isDispatch (scheduled world2overlap) /\
  option_map executionJobId (lookupCron 0%nat (crons w')) = Some (Some 1%nat).
Proof.
  intros w'.
  apply (rescheduler_overlap_suppression sampleParser 0%nat world2overlap
           {| _id := 0%nat; functionName := "job"; args := sampleArgs;
              name := None; schedule := Interval 1000;
              schedulerJobId := Some 2%nat; executionJobId := Some 1%nat |}
           1%nat
           {| task_id := 1%nat; call := CallFunction "job" sampleArgs;
              scheduledTime := 1000 + 0; state := inProgress |}
           eq_refl eq_refl eq_refl eq_refl (Ok tt) w' eq_refl).
Defined.

Lemma scheduleCron_validation_witness :
  let w := run (intervalWithName sampleParseArgs sampleParser
                  "daily" 1000 "job" None) (emptyWorld 0) in
  scheduleCron sampleParseArgs sampleParser (Interval 1000) "job"
               (Some "daily") None w = (Throw (DuplicateName "daily"), w) /\
  scheduleCron sampleParseArgs sampleParser (Interval 999) "job" None None w
    = (Throw InvalidInterval, w) /\
  scheduleCron sampleParseArgs sampleParser (Cron "every day") "job" None None w
    = (Throw (InvalidCronSpec "every day"), w) /\
  fst (scheduleCron sampleParseArgs sampleParser (Interval 1000) "job"
                    (Some "hourly") None w) = Ok 1%nat.
Proof.
  intros w.
  assert (Hu : namesUnique w).
  { assert (Hc : crons w =
              [{| _id := 0%nat; functionName := "job"; args := [];
                  name := Some "daily"; schedule := Interval 1000;
                  schedulerJobId := Some 0%nat; executionJobId := None |}])
      by reflexivity.
    intros n _. rewrite Hc. cbn [filter].
    destruct (hasName n _); simpl; lia. }
  split; [|split; [|split]].
  - destruct (scheduleCron_validation sampleParseArgs sampleParser
                (Interval 1000) "job" (Some "daily") None w Hu) as (H & _).
    destruct (H eq_refl) as (n & E & ->). now injection E as <-.
  - destruct (scheduleCron_validation sampleParseArgs sampleParser
                (Interval 999) "job" None None w Hu) as (_ & H & _).
    apply (H eq_refl 999); [reflexivity|lia].
  - destruct (scheduleCron_validation sampleParseArgs sampleParser
                (Cron "every day") "job" None None w Hu) as (_ & _ & H & _).
    apply (H eq_refl "every day"); reflexivity.
  - destruct (scheduleCron_validation sampleParseArgs sampleParser
                (Interval 1000) "job" (Some "hourly") None w Hu)
      as (_ & _ & _ & H).
    destruct (H eq_refl) as [_ H2];
      [intros ms E; injection E as <-; lia | discriminate | ].
    apply (H2 1000 []); reflexivity.
Defined.

Lemma del_cancels_and_deletes_witness :
  exists w',
    del 0%nat world2overlap = (Ok tt, w') /\
    trace w' = trace world2overlap ++
               [ECancel 2%nat] ++ [ECancel 1%nat] ++ [EDelete 0%nat] /\
    isOutstanding (status 2%nat w') = false /\
    (forall eid, Some 1%nat = Some eid ->
                 isOutstanding (status eid w') = false) /\
    crons w' = [] /\
    get 0%nat w' = (Ok None, w').
Proof.
  exact (del_cancels_and_deletes 0%nat world2overlap
           {| _id := 0%nat; functionName := "job"; args := sampleArgs;
              name := None; schedule := Interval 1000;
              schedulerJobId := Some 2%nat; executionJobId := Some 1%nat |}
           2%nat eq_refl eq_refl).
Defined.

Lemma rescheduler_integrity_check_witness :
  rescheduler sampleParser 0%nat (complete 0%nat world1) =
  (Throw (IntegrityError 0%nat success), complete 0%nat world1).
Proof.
  exact (rescheduler_integrity_check sampleParser 0%nat (complete 0%nat world1)
           {| _id := 0%nat; functionName := "job"; args := sampleArgs;
              name := None; schedule := Interval 1000;
              schedulerJobId := Some 0%nat; executionJobId := None |}
           0%nat eq_refl eq_refl
           ltac:(discriminate) ltac:(discriminate)).
Defined.

Lemma rescheduler_rearms_witness :
  let w := setStatus 1%nat failed (atTime 1000 worldNamed) in
  let w' := run (rescheduler sampleParser 0%nat) w in
  exists d h T h',
    lookupCron 0%nat (crons w) = Some d /\
    schedulerJobId d = Some h /\
    status h' w = None /\
    filter isTick (scheduled w') =
      filter isTick (scheduled w) ++
      [{| task_id := h'; call := CallRescheduler 0%nat;
          scheduledTime := T; state := pending |}] /\
    trace w' =
      trace w ++
      (if stillRunning d w then []
       else [ERunAfter 0 (CallFunction (functionName d) (args d))
                       (nextTaskId w)]) ++
      [ERunAt T (CallRescheduler 0%nat) h'; EPatch 0%nat h'] /\
    option_map schedulerJobId (lookupCron 0%nat (crons w')) = Some (Some h') /\
    status h' w' = Some pending /\
    wf w' /\
    (oneTick w d ->
     (exists d', lookupCron 0%nat (crons (complete h w')) = Some d' /\
                 oneTick (complete h w') d') /\
     (forall d0, In d0 (crons w) -> _id d0 <> 0%nat -> oneTick w d0 ->
                 In d0 (crons (complete h w')) /\
                 oneTick (complete h w') d0)).
Proof.
  intros w w'.
  apply (rescheduler_rearms sampleParser 0%nat w w'); [|reflexivity].
  repeat split; vm_compute; repeat constructor; try lia.
  - intros [E|[]]. discriminate.
  - intros [].
Defined.

(** In that run the second job has stalled (its tick failed) while the first
    one ticks: the first row has its one outstanding tick before the
    tick. *)
Lemma oneTick_beside_stalled :
  let w := setStatus 1%nat failed (atTime 1000 worldNamed) in
  exists d, lookupCron 0%nat (crons w) = Some d /\ oneTick w d /\
            status 1%nat w = Some failed.
Proof.
  intros w. eexists. split; [reflexivity|]. split; [|reflexivity].
  exists 0%nat, {| task_id := 0%nat; call := CallRescheduler 0%nat;
                   scheduledTime := 1000; state := pending |}.
  split; [reflexivity|]. split; [reflexivity|].
  split; [reflexivity|]. split; [reflexivity|].
  intros sf' [<-|[<-|[]]] Ht Hk; [reflexivity|discriminate].
Defined.

Lemma rescheduler_dispatches_when_handle_unknown_witness :
  exists r w' rest,
    rescheduler sampleParser 0%nat world2lost = (r, w') /\
    trace w' = trace world2lost ++
               ERunAfter 0 (CallFunction "job" sampleArgs) 8%nat :: rest /\
    In {| task_id := 8%nat; call := CallFunction "job" sampleArgs;
          scheduledTime := 2000 + 0; state := pending |} (scheduled w') /\
    (r = Ok tt \/ r = Throw ParserError) /\
    (forall ms, Interval 1000 = Interval ms -> r = Ok tt).
Proof.
  exact (rescheduler_dispatches_when_handle_unknown sampleParser 0%nat
           world2lost
           {| _id := 0%nat; functionName := "job"; args := sampleArgs;
              name := None; schedule := Interval 1000;
              schedulerJobId := Some 2%nat; executionJobId := Some 7%nat |}
           2%nat
           {| task_id := 2%nat; call := CallRescheduler 0%nat;
              scheduledTime := 2000; state := pending |}
           7%nat eq_refl eq_refl eq_refl eq_refl eq_refl eq_refl).
Defined.

(** ** Where the code parts from what it documents *)

(** C4. The duplicate-name check is skipped for the empty name.  After one
    registration under the empty name a row carries that name, yet a second
    registration under it, through [intervalWithName] or through
    [cronWithName], returns a new id instead of throwing "already exists",
    as the same calls do for any other name; with two rows under one name
    the lookup by name then throws. *)
Theorem register_empty_name_twice :
  let w1 := run (intervalWithName sampleParseArgs sampleParser
                   EmptyString 1000 "job" None) (emptyWorld 0) in
  (exists d, In d (crons w1) /\ name d = Some EmptyString) /\
  fst (intervalWithName sampleParseArgs sampleParser
         EmptyString 1000 "job" None w1) = Ok 1%nat /\
  fst (cronWithName sampleParseArgs sampleParser
         EmptyString "0 0 * * *" "job" None w1) = Ok 1%nat /\
  fst (intervalWithName sampleParseArgs sampleParser
         "daily" 1000 "job" None worldNamed) = Throw (DuplicateName "daily") /\
  fst (cronWithName sampleParseArgs sampleParser
         "daily" "0 0 * * *" "job" None worldNamed)
    = Throw (DuplicateName "daily") /\
  fst (getByName EmptyString worldEmptyNames) = Throw NotUnique.
Proof.
  split; [eexists; split; [left; reflexivity|reflexivity]|].
  repeat split.
Qed.

(** ** Where the spec's wording and the code part *)



Lemma empty_name_skips_duplicate_check_witness :
  fst (scheduleCron sampleParseArgs sampleParser (Interval 1000) "job"
                    (Some EmptyString) None worldEmptyNames)
  <> Throw (DuplicateName EmptyString) /\
  exists ids w',
    registerAll 3 (intervalWithName sampleParseArgs sampleParser
                     EmptyString 1000 "job" None) worldEmptyNames
    = (Ok ids, w') /\
    List.length ids = 3%nat /\
    List.length (filter (hasName EmptyString) (crons w')) =
    (List.length (filter (hasName EmptyString) (crons worldEmptyNames)) + 3)%nat.
Proof.
  destruct (empty_name_skips_duplicate_check sampleParseArgs sampleParser)
    as [H1 H2].
  split.
  - apply H1.
  - apply (H2 3%nat 1000 "job" None [] worldEmptyNames); [lia|reflexivity].
Defined.

(** * Concrete runs of the further properties *)

Lemma wf_emptyWorld0 : wf (emptyWorld 0).
Proof. repeat split; constructor. Defined.

Lemma scheduleCron_registers_witness :
  exists a' T eff,
    let row := {| _id := 0%nat; functionName := "job"; args := a';
                  name := None; schedule := Interval 1000;
                  schedulerJobId := Some (nextTaskId (emptyWorld 0));
                  executionJobId := None |} in
    sampleParseArgs (Some sampleArgs) = Some a' /\
    lookupCron 0%nat (crons (emptyWorld 0)) = None /\
    crons world1 = crons (emptyWorld 0) ++ [row] /\
    scheduled world1 =
      scheduled (emptyWorld 0) ++
      [{| task_id := nextTaskId (emptyWorld 0); call := CallRescheduler 0%nat;
          scheduledTime := T; state := pending |}] /\
    status (nextTaskId (emptyWorld 0)) (emptyWorld 0) = None /\
    trace world1 = trace (emptyWorld 0) ++
                   [EInsert 0%nat; eff; EPatch 0%nat (nextTaskId (emptyWorld 0))] /\
    (T = now (emptyWorld 0) + 1000 /\
     eff = ERunAfter 1000 (CallRescheduler 0%nat) (nextTaskId (emptyWorld 0))) /\
    get 0%nat world1 = (Ok (Some row), world1).
Proof.
  exact (scheduleCron_registers sampleParseArgs sampleParser
           (Interval 1000) "job" None (Some sampleArgs)
           (emptyWorld 0) 0%nat world1 wf_emptyWorld0 eq_refl).
Defined.

Lemma register_then_getByName_witness :
  exists d,
    getByName "daily" worldNamed = (Ok (Some d), worldNamed) /\
    _id d = 1%nat /\ name d = Some "daily" /\
    schedule d = Interval 1000 /\ functionName d = "job" /\
    schedulerJobId d = Some (nextTaskId world1).
Proof.
  exact (register_then_getByName sampleParseArgs sampleParser
           (Interval 1000) "job" "daily" None world1 1%nat worldNamed
           eq_refl eq_refl).
Defined.

Lemma register_twice_same_name_witness :
  scheduleCron sampleParseArgs sampleParser (Cron "0 0 * * *") "other"
               (Some "daily") None worldNamed
  = (Throw (DuplicateName "daily"), worldNamed).
Proof.
  exact (register_twice_same_name sampleParseArgs sampleParser
           (Interval 1000) "job" "daily" None world1 1%nat worldNamed
           (Cron "0 0 * * *") "other" None eq_refl eq_refl).
Defined.

Lemma register_then_del_witness :
  exists w'',
    del 0%nat world1 = (Ok tt, w'') /\
    crons w'' = crons (emptyWorld 0) /\
    status (nextTaskId (emptyWorld 0)) w'' = Some canceled /\
    (forall h, h <> nextTaskId (emptyWorld 0) ->
               status h w'' = status h (emptyWorld 0)) /\
    trace w'' = trace world1 ++
                [ECancel (nextTaskId (emptyWorld 0)); EDelete 0%nat].
Proof.
  exact (register_then_del sampleParseArgs sampleParser
           (Interval 1000) "job" None (Some sampleArgs)
           (emptyWorld 0) 0%nat world1 wf_emptyWorld0 eq_refl).
Defined.

Lemma deleted_job_is_gone_witness :
  let w' := run (del 0%nat) world2 in
  get 0%nat w' = (Ok None, w') /\
  del 0%nat w' = (Throw (JobNotFound 0%nat), w') /\
  rescheduler sampleParser 0%nat w' = (Throw (JobNotFound 0%nat), w').
Proof.
  exact (deleted_job_is_gone sampleParser 0%nat world2
           (run (del 0%nat) world2) eq_refl).
Defined.

Lemma rescheduler_leaves_others_alone_witness :
  let w := atTime 1000 worldNamed in
  let w' := run (rescheduler sampleParser 1%nat) w in
  map _id (crons w') = map _id (crons w) /\
  (forall id, id <> 1%nat ->
              lookupCron id (crons w') = lookupCron id (crons w)) /\
  (forall d, lookupCron 1%nat (crons w) = Some d ->
     exists d', lookupCron 1%nat (crons w') = Some d' /\
                functionName d' = functionName d /\ args d' = args d /\
                name d' = name d /\ schedule d' = schedule d /\
                executionJobId d' = executionJobId d) /\
  (exists new, scheduled w' = scheduled w ++ new /\
               (List.length new <= 2)%nat) /\
  nextCronId w' = nextCronId w.
Proof.
  exact (rescheduler_leaves_others_alone sampleParser 1%nat
           (atTime 1000 worldNamed) (Ok tt)
           (run (rescheduler sampleParser 1%nat) (atTime 1000 worldNamed))
           eq_refl).
Defined.

Lemma rescheduler_dispatch_decision_witness :
  dispatches (trace world2) =
    dispatches (trace (atTime 1000 world1)) ++
    [ERunAfter 0 (CallFunction "job" sampleArgs) 1%nat] /\
  filter isDispatch (scheduled world2) =
    filter isDispatch (scheduled (atTime 1000 world1)) ++
    [{| task_id := 1%nat; call := CallFunction "job" sampleArgs;
        scheduledTime := 1000 + 0; state := pending |}].
Proof.
  exact (rescheduler_dispatch_decision sampleParser 0%nat
           (atTime 1000 world1) world2
           {| _id := 0%nat; functionName := "job"; args := sampleArgs;
              name := None; schedule := Interval 1000;
              schedulerJobId := Some 0%nat; executionJobId := None |}
           eq_refl eq_refl).
Defined.

Lemma wf_worldCron : wf (atTime 1704153600001 worldCron).
Proof.
  repeat split; vm_compute; repeat constructor; intros [].
Defined.

Lemma rescheduler_cron_next_witness :
  let w := atTime 1704153600001 worldCron in
  fst (rescheduler sampleParser 0%nat w) = Ok tt /\
  tickTime 0%nat (snd (rescheduler sampleParser 0%nat w)) = Some 1704240000000.
Proof.
  exact (rescheduler_cron_next sampleParser 0%nat
           (atTime 1704153600001 worldCron)
           {| _id := 0%nat; functionName := "job"; args := [];
              name := None; schedule := Cron "0 0 * * *";
              schedulerJobId := Some 0%nat; executionJobId := None |}
           0%nat
           {| task_id := 0%nat; call := CallRescheduler 0%nat;
              scheduledTime := 1704153600000; state := pending |}
           "0 0 * * *" wf_worldCron eq_refl eq_refl eq_refl eq_refl eq_refl).
Defined.

Lemma del_leaves_others_alone_witness :
  let w' := run (del 1%nat) worldNamed in
  (forall id, id <> 1%nat ->
              lookupCron id (crons w') = lookupCron id (crons worldNamed)) /\
  (forall h, Some 1%nat <> Some h -> None <> Some h ->
             lookupTask h (scheduled w') = lookupTask h (scheduled worldNamed)) /\
  nextCronId w' = nextCronId worldNamed /\
  nextTaskId w' = nextTaskId worldNamed.
Proof.
  exact (del_leaves_others_alone 1%nat worldNamed (run (del 1%nat) worldNamed)
           {| _id := 1%nat; functionName := "job"; args := [];
              name := Some "daily"; schedule := Interval 1000;
              schedulerJobId := Some 1%nat; executionJobId := None |}
           eq_refl eq_refl).
Defined.

Lemma reachable_sample :
  reachable sampleParseArgs sampleParser (complete 0%nat world2).
Proof.
  apply (reach_tick _ _ (atTime 1000 world1) 0%nat
           {| _id := 0%nat; functionName := "job"; args := sampleArgs;
              name := None; schedule := Interval 1000;
              schedulerJobId := Some 0%nat; executionJobId := None |}
           0%nat world2); try reflexivity.
  apply reach_clock.
  apply (reach_register _ _ (emptyWorld 0) (Interval 1000) "job" None
           (Some sampleArgs) 0%nat world1); [|reflexivity].
  apply reach_empty.
Defined.

Lemma reachable_store_invariant_witness : storeInv (complete 0%nat world2).
Proof.
  exact (reachable_store_invariant sampleParseArgs sampleParser
           (complete 0%nat world2) reachable_sample).
Defined.

Lemma reachable_every_tick_dispatches_witness :
  let w := complete 0%nat world2 in
  (forall j, fst (del j w) <> Throw (NotScheduled j) /\
             fst (rescheduler sampleParser j w) <> Throw (NotScheduled j)) /\
  (forall j w', rescheduler sampleParser j w = (Ok tt, w') ->
     exists d, lookupCron j (crons w) = Some d /\
               dispatches (trace w') =
               dispatches (trace w) ++
               [ERunAfter 0 (CallFunction (functionName d) (args d))
                          (nextTaskId w)]).
Proof.
  exact (reachable_every_tick_dispatches sampleParseArgs sampleParser
           (complete 0%nat world2) reachable_sample).
Defined.

Lemma reachable_one_tick_per_job_witness :
  let tick := {| task_id := 2%nat; call := CallRescheduler 0%nat;
                 scheduledTime := 2000; state := pending |} in
  In tick (scheduled (complete 0%nat world2)) /\
  isTickFor 0%nat tick = true /\
  pendingOrInProgress (state tick) = true /\
  tick = tick.
Proof.
  intros tick.
  assert (Hin : In tick (scheduled (complete 0%nat world2)))
    by (right; right; left; reflexivity).
  split; [exact Hin|]. split; [reflexivity|]. split; [reflexivity|].
  exact (reachable_one_tick_per_job sampleParseArgs sampleParser
           (complete 0%nat world2) 0%nat tick tick reachable_sample
           Hin Hin eq_refl eq_refl eq_refl eq_refl).
Defined.

Lemma wf_worldNamed : wf worldNamed.
Proof.
  repeat split; vm_compute; repeat constructor; try lia.
  - intros [E|[]]. discriminate.
  - intros [].
Defined.

Lemma get_agrees_with_list_witness :
  let d := {| _id := 1%nat; functionName := "job"; args := [];
              name := Some "daily"; schedule := Interval 1000;
              schedulerJobId := Some 1%nat; executionJobId := None |} in
  worldNamed = worldNamed /\
  (In d (crons worldNamed) <-> get 1%nat worldNamed = (Ok (Some d), worldNamed)).
Proof.
  exact (get_agrees_with_list worldNamed (crons worldNamed) worldNamed _
           wf_worldNamed eq_refl).
Defined.

Lemma namesUnique_worldNamed : namesUnique worldNamed.
Proof.
  assert (Hc : crons worldNamed =
            [{| _id := 0%nat; functionName := "job"; args := sampleArgs;
                name := None; schedule := Interval 1000;
                schedulerJobId := Some 0%nat; executionJobId := None |};
             {| _id := 1%nat; functionName := "job"; args := [];
                name := Some "daily"; schedule := Interval 1000;
                schedulerJobId := Some 1%nat; executionJobId := None |}])
    by reflexivity.
  intros n _. rewrite Hc. cbn [filter].
  change (hasName n _) with false at 1. cbv iota.
  destruct (hasName n _); simpl; lia.
Defined.

Lemma delByName_frees_name_witness :
  exists w',
    delByName "daily" worldNamed = (Ok tt, w') /\
    crons w' = filter (fun x => negb (Nat.eqb (_id x) 1)) (crons worldNamed) /\
    isOutstanding (status 1%nat w') = false /\
    getByName "daily" w' = (Ok None, w') /\
    get 1%nat w' = (Ok None, w').
Proof.
  apply (delByName_frees_name "daily" worldNamed
           {| _id := 1%nat; functionName := "job"; args := [];
              name := Some "daily"; schedule := Interval 1000;
              schedulerJobId := Some 1%nat; executionJobId := None |}
           1%nat wf_worldNamed namesUnique_worldNamed eq_refl);
    try reflexivity.
  right. left. reflexivity.
Defined.
